(** * Verification of the Kafka connection multiplexer (connection.go)

    The development embeds the connection object of [connection.go]: the
    correlation-ID generator ([nextIDLoop]), the table of pending responses
    ([respWaiter], the routing step of [readRespLoop]), shutdown
    ([closeConnection], [Close]) and the seven request methods.

    Goroutines are small state machines whose control points carry the local
    variables of the Go function; everything done while [c.mu] is held is one
    atomic step; a send and a receive on an unbuffered channel are one joint
    step of the two goroutines involved. *)

From Stdlib Require Import ZArith Lia.
From Stdlib.Strings Require Import Byte.
From stdpp Require Import gmap list strings.

(** ** Values *)

(** [math.MaxInt32] and the wrap-around of [int32] arithmetic. *)
Definition MaxInt32 : Z := 2147483647.

Definition int32 (z : Z) : Z := ((z + 2 ^ 31) mod 2 ^ 32 - 2 ^ 31)%Z.

(** [[]byte] *)
Definition payload : Type := list byte.

(** Go [error] values.  The interface value [nil] is [None]. *)
Inductive err_val : Type :=
| ErrClosed                          (* errors.New("closed") *)
| Errorf_conflict (id : Z)           (* fmt.Errorf("correlation conflict: %d", id) *)
| Errorf_wait (e : err_val)          (* fmt.Errorf("wait for response: %s", err) *)
| ErrStream (msg : string).          (* an error coming from the stream or from proto *)

Definition error : Type := option err_val.

(** The request kinds, one per method of the connection. *)
Inductive api : Type :=
| ApiMetadata | ApiProduce | ApiFetch | ApiOffset
| ApiConsumerMetadata | ApiOffsetCommit | ApiOffsetFetch.

(** The request structures of package proto, restricted to the fields this
    file touches; [body] stands for everything else. *)
Record request : Type := {
  CorrelationID : Z;
  RequiredAcks : Z;
  ReplicaID : Z;
  body : payload
}.

Definition set_CorrelationID (id : Z) (r : request) : request :=
  {| CorrelationID := id; RequiredAcks := RequiredAcks r;
     ReplicaID := ReplicaID r; body := body r |}.

Definition set_ReplicaID (id : Z) (r : request) : request :=
  {| CorrelationID := CorrelationID r; RequiredAcks := RequiredAcks r;
     ReplicaID := id; body := body r |}.

(** Modelled from the spec: [proto.RequiredAcksNone], the
    no-acknowledgement value of a produce request's required-acks field
    (package proto is not among the sources).  Only equality with it matters. *)
Definition RequiredAcksNone : Z := 0.

(** What a method returns: either [nil, err], or whatever the decoder of the
    request kind makes of the response bytes. *)
Inductive retval : Type :=
| RetErr (err : error)                (* return nil, err *)
| RetDecode (a : api) (b : payload).  (* return proto.Read<a>Resp(bytes.NewReader(b)) *)

(** ** The stream [c.rw] and the wire-format collaborator

    The environment is a script: what the next calls of [proto.ReadResp] and
    of [WriteTo] will return, and what [Close] returns.  Quantifying over the
    script quantifies over every behaviour of the peer. *)
Record stream : Type := {
  rd_next : list (Z * payload + err_val);  (* results of the coming proto.ReadResp calls *)
  rd_done : list (Z * payload);            (* frames read so far, latest first *)
  wr_next : list error;                    (* results of the coming WriteTo calls; nil once exhausted *)
  wr_done : list (api * request);          (* requests handed to WriteTo, latest first *)
  close_res : error;                       (* result of rw.Close() *)
  closes : nat                             (* number of rw.Close() calls *)
}.

(** Channels of type [chan []byte] are numbered in order of creation; the
    list holds, for each, whether it has been closed. *)
Abbreviation chan := nat (only parsing).

(** Control points of [readRespLoop], with its local variables. *)
Inductive reader : Type :=
| RdRead                                        (* line 81: proto.ReadResp(rd) *)
| RdFail (err : err_val)                        (* line 83: c.closeConnection(err) *)
| RdRoute (correlationID : Z) (b : payload)     (* lines 87-90 *)
| RdSend (correlationID : Z) (rc : chan) (b : payload)  (* line 96: rc <- b *)
| RdCloseCh (rc : chan)                         (* line 97: close(rc) *)
| RdDefer                                       (* lines 72-76, the deferred function *)
| RdExit.

(** The connection: the fields of the Go structure, the channels made by
    [respWaiter], the output of [log.Printf], and the state of the two
    goroutines started by [newTCPConnection]. *)
Record connection : Type := {
  rw : stream;
  stop_closed : bool;        (* close(c.stop) has run *)
  nextID_closed : bool;      (* close(c.nextID) has run *)
  respc : gmap Z chan;
  stopErr : error;
  chans : list bool;
  logged : list Z;           (* "response to unknown request: %d" *)
  idloop : option Z;         (* nextIDLoop: Some id in its select, None once returned *)
  rdloop : reader            (* readRespLoop *)
}.

Definition set_rw (x : stream) (c : connection) : connection :=
  {| rw := x; stop_closed := stop_closed c; nextID_closed := nextID_closed c;
     respc := respc c; stopErr := stopErr c; chans := chans c;
     logged := logged c; idloop := idloop c; rdloop := rdloop c |}.

Definition set_stop_closed (x : bool) (c : connection) : connection :=
  {| rw := rw c; stop_closed := x; nextID_closed := nextID_closed c;
     respc := respc c; stopErr := stopErr c; chans := chans c;
     logged := logged c; idloop := idloop c; rdloop := rdloop c |}.

Definition set_nextID_closed (x : bool) (c : connection) : connection :=
  {| rw := rw c; stop_closed := stop_closed c; nextID_closed := x;
     respc := respc c; stopErr := stopErr c; chans := chans c;
     logged := logged c; idloop := idloop c; rdloop := rdloop c |}.

Definition set_respc (x : gmap Z chan) (c : connection) : connection :=
  {| rw := rw c; stop_closed := stop_closed c; nextID_closed := nextID_closed c;
     respc := x; stopErr := stopErr c; chans := chans c;
     logged := logged c; idloop := idloop c; rdloop := rdloop c |}.

Definition set_stopErr (x : error) (c : connection) : connection :=
  {| rw := rw c; stop_closed := stop_closed c; nextID_closed := nextID_closed c;
     respc := respc c; stopErr := x; chans := chans c;
     logged := logged c; idloop := idloop c; rdloop := rdloop c |}.

Definition set_chans (x : list bool) (c : connection) : connection :=
  {| rw := rw c; stop_closed := stop_closed c; nextID_closed := nextID_closed c;
     respc := respc c; stopErr := stopErr c; chans := x;
     logged := logged c; idloop := idloop c; rdloop := rdloop c |}.

Definition set_logged (x : list Z) (c : connection) : connection :=
  {| rw := rw c; stop_closed := stop_closed c; nextID_closed := nextID_closed c;
     respc := respc c; stopErr := stopErr c; chans := chans c;
     logged := x; idloop := idloop c; rdloop := rdloop c |}.

Definition set_idloop (x : option Z) (c : connection) : connection :=
  {| rw := rw c; stop_closed := stop_closed c; nextID_closed := nextID_closed c;
     respc := respc c; stopErr := stopErr c; chans := chans c;
     logged := logged c; idloop := x; rdloop := rdloop c |}.

Definition set_rdloop (x : reader) (c : connection) : connection :=
  {| rw := rw c; stop_closed := stop_closed c; nextID_closed := nextID_closed c;
     respc := respc c; stopErr := stopErr c; chans := chans c;
     logged := logged c; idloop := idloop c; rdloop := x |}.

(** The result of a step: it is taken, it cannot be taken yet, or the
    goroutine panics. *)
Inductive result (A : Type) : Type :=
| Ok (a : A)
| Blocked
| Panic.
Arguments Ok {A} a.
Arguments Blocked {A}.
Arguments Panic {A}.

(** ** newTCPConnection

    Dialling is outside the model: its outcome is the argument. *)
Definition newTCPConnection (dial : stream + err_val) : connection + err_val :=
  match dial with
  | inr err => inr err
  | inl conn =>
      inl {| rw := conn; stop_closed := false; nextID_closed := false;
             respc := ∅; stopErr := None; chans := []; logged := [];
             idloop := Some 1%Z;      (* go c.nextIDLoop(): var id int32 = 1 *)
             rdloop := RdRead |}      (* go c.readRespLoop() *)
  end.

(** ** nextIDLoop *)

(** The two cases of the select statement. *)
Inductive select_case : Type := case_stop | case_send.

(** One iteration for the local variable [id]: [None] when the loop returns. *)
Definition nextIDLoop (id : Z) (sel : select_case) : option Z :=
  match sel with
  | case_stop => None                         (* close(c.nextID); return *)
  | case_send =>
      let id := int32 (id + 1) in             (* id++ *)
      Some (if (id =? MaxInt32)%Z then 1%Z else id)
  end.

(** [<-c.nextID], as seen by the receiver: the value and the ok flag. *)
Definition recv_nextID (c : connection) : result ((Z * bool) * connection) :=
  if nextID_closed c then Ok ((0%Z, false), c)
  else match idloop c with
       | Some id => Ok ((id, true), set_idloop (nextIDLoop id case_send) c)
       | None => Blocked
       end.

(** ** respWaiter (the whole body runs under c.mu) *)
Definition respWaiter (correlationID : Z) (c : connection)
  : (chan + err_val) * connection :=
  match respc c !! correlationID with
  | Some _ => (inr (Errorf_conflict correlationID), c)
  | None =>
      let ch := length (chans c) in           (* make(chan []byte) *)
      let c := set_chans (chans c ++ [false]) c in
      (inl ch, set_respc (<[correlationID := ch]> (respc c)) c)
  end.

(** ** closeConnection (the whole body runs under c.mu)

    The send on [c.stop] is received by [nextIDLoop], which closes
    [c.nextID] and returns.  Sending on a closed channel panics; with the
    loop gone and the channel open the send would never complete. *)
Definition rw_Close (c : connection) : error * connection :=
  let s := rw c in
  (close_res s,
   set_rw {| rd_next := rd_next s; rd_done := rd_done s; wr_next := wr_next s;
             wr_done := wr_done s; close_res := close_res s;
             closes := S (closes s) |} c).

Definition closeConnection (err : error) (c : connection)
  : result (error * connection) :=
  match stopErr c with
  | Some e => Ok (Some e, c)
  | None =>
      let c := set_stopErr err c in
      if stop_closed c then Panic             (* c.stop <- struct{}{} *)
      else match idloop c with
           | None => Blocked
           | Some id =>
               let c := set_idloop (nextIDLoop id case_stop) c in
               let c := set_nextID_closed true c in
               let c := set_stop_closed true c in   (* close(c.stop) *)
               Ok (rw_Close c)                      (* return c.rw.Close() *)
           end
  end.

Definition Close (c : connection) : result (error * connection) :=
  closeConnection (Some ErrClosed) c.

(** Sequencing of steps. *)
Global Instance result_ret : MRet result := λ A a, Ok a.
Global Instance result_bind : MBind result := λ A B f r,
  match r with
  | Ok a => f a
  | Blocked => Blocked
  | Panic => Panic
  end.

(** ** The stream *)

(** [proto.ReadResp(rd)]: the next scripted result.  With nothing left to
    read the call waits, unless the stream has been closed: reading from a
    closed stream fails. *)
Definition ReadResp (c : connection)
  : result ((Z * payload + err_val) * connection) :=
  let s := rw c in
  match rd_next s with
  | r :: rest =>
      let done := match r with inl f => f :: rd_done s | inr _ => rd_done s end in
      Ok (r, set_rw {| rd_next := rest; rd_done := done; wr_next := wr_next s;
                       wr_done := wr_done s; close_res := close_res s;
                       closes := closes s |} c)
  | [] =>
      match closes s with
      | O => Blocked
      | S _ => Ok (inr (ErrStream "use of closed network connection"), c)
      end
  end.

(** [req.WriteTo(c.rw)] *)
Definition WriteTo (a : api) (req : request) (c : connection)
  : error * connection :=
  let s := rw c in
  let err := match wr_next s with e :: _ => e | [] => None end in
  (err, set_rw {| rd_next := rd_next s; rd_done := rd_done s;
                  wr_next := tail (wr_next s);
                  wr_done := (a, req) :: wr_done s;
                  close_res := close_res s; closes := closes s |} c).

(** ** Response channels *)

(** [close(ch)]: closing a closed (or nil) channel panics. *)
Definition close_chan (ch : chan) (chs : list bool) : result (list bool) :=
  match chs !! ch with
  | Some false => Ok (<[ch := true]> chs)
  | _ => Panic
  end.

(** [for _, cc := range c.respc { close(cc) }] *)
Definition close_all (m : gmap Z chan) (chs : list bool) : result (list bool) :=
  foldr (λ kv acc, chs ← acc; close_chan kv.2 chs) (Ok chs) (map_to_list m).

(** [b, ok := <-respc], as seen by the receiver.  On an open channel the
    receive completes only together with the reader's send [rc <- b]. *)
Definition recv_resp (respc : chan) (c : connection)
  : result ((payload * bool) * connection) :=
  match chans c !! respc with
  | Some true => Ok (([], false), c)
  | _ =>
      match rdloop c with
      | RdSend _ rc b =>
          if decide (rc = respc) then Ok ((b, true), set_rdloop (RdCloseCh rc) c)
          else Blocked
      | _ => Blocked
      end
  end.

(** ** readRespLoop: one step of the reader goroutine *)
Definition readRespLoop (c : connection) : result connection :=
  match rdloop c with
  | RdRead =>
      '(r, c) ← ReadResp c;
      match r with
      | inr err => Ok (set_rdloop (RdFail err) c)
      | inl (correlationID, b) => Ok (set_rdloop (RdRoute correlationID b) c)
      end
  | RdFail err =>
      '(_, c) ← closeConnection (Some err) c;   (* _ = c.closeConnection(err) *)
      Ok (set_rdloop RdDefer c)                 (* return *)
  | RdRoute correlationID b =>
      let rc := respc c !! correlationID in
      let c := set_respc (delete correlationID (respc c)) c in
      match rc with
      | None =>                                 (* log.Printf(...); continue *)
          Ok (set_rdloop RdRead (set_logged (correlationID :: logged c) c))
      | Some rc => Ok (set_rdloop (RdSend correlationID rc b) c)
      end
  | RdSend _ rc _ =>                            (* completes in recv_resp *)
      match chans c !! rc with
      | Some true => Panic
      | _ => Blocked
      end
  | RdCloseCh rc =>
      chs ← close_chan rc (chans c);
      Ok (set_rdloop RdRead (set_chans chs c))
  | RdDefer =>
      chs ← close_all (respc c) (chans c);
      Ok (set_rdloop RdExit (set_chans chs c))
  | RdExit => Blocked
  end.

(** ** The request methods

    Control points of a method call, with the locals [req] and [respc].  The
    request travels with the call because the methods assign
    [req.CorrelationID] through the caller's pointer. *)
Inductive call : Type :=
| Start (req : request)                  (* req.CorrelationID, ok = <-c.nextID *)
| SawClosed (req : request)              (* !ok: about to read c.stopErr *)
| Register (req : request)               (* c.respWaiter(req.CorrelationID) *)
| WriteOnly (req : request)              (* Produce without acks: req.WriteTo(c.rw) *)
| Write (req : request) (respc : chan)   (* req.WriteTo(c.rw) *)
| Wait (req : request) (respc : chan)    (* b, ok := <-respc *)
| SawDrained (req : request)             (* !ok: about to read c.stopErr *)
| Return (req : request) (r : retval).

Definition Metadata (pc : call) (c : connection) : result (call * connection) :=
  match pc with
  | Start req =>
      '((id, ok), c) ← recv_nextID c;
      let req := set_CorrelationID id req in
      Ok (if (ok : bool) then Register req else SawClosed req, c)
  | SawClosed req =>                      (* c.mu.Lock(); err := c.stopErr; c.mu.Unlock(); return nil, err *)
      Ok (Return req (RetErr (stopErr c)), c)
  | Register req =>
      match respWaiter (CorrelationID req) c with
      | (inr err, c) => Ok (Return req (RetErr (Some (Errorf_wait err))), c)
      | (inl respc, c) => Ok (Write req respc, c)
      end
  | WriteOnly _ => Blocked                (* not a control point of this method *)
  | Write req respc =>
      match WriteTo ApiMetadata req c with
      | (Some err, c) => Ok (Return req (RetErr (Some err)), c)
      | (None, c) => Ok (Wait req respc, c)
      end
  | Wait req respc =>
      '((b, ok), c) ← recv_resp respc c;
      Ok (if (ok : bool) then Return req (RetDecode ApiMetadata b) else SawDrained req, c)
  | SawDrained req =>                     (* c.mu.Lock(); err := c.stopErr; c.mu.Unlock(); return nil, err *)
      Ok (Return req (RetErr (stopErr c)), c)
  | Return _ _ => Blocked                 (* the call is over *)
  end.

Definition Produce (pc : call) (c : connection) : result (call * connection) :=
  match pc with
  | Start req =>
      '((id, ok), c) ← recv_nextID c;
      let req := set_CorrelationID id req in
      if negb ok then Ok (SawClosed req, c)
      else if (RequiredAcks req =? RequiredAcksNone)%Z then Ok (WriteOnly req, c)
      else Ok (Register req, c)
  | SawClosed req =>                      (* return nil, c.stopErr *)
      Ok (Return req (RetErr (stopErr c)), c)
  | Register req =>
      match respWaiter (CorrelationID req) c with
      | (inr err, c) => Ok (Return req (RetErr (Some (Errorf_wait err))), c)
      | (inl respc, c) => Ok (Write req respc, c)
      end
  | WriteOnly req =>                      (* _, err := req.WriteTo(c.rw); return nil, err *)
      let '(err, c) := WriteTo ApiProduce req c in
      Ok (Return req (RetErr err), c)
  | Write req respc =>
      match WriteTo ApiProduce req c with
      | (Some err, c) => Ok (Return req (RetErr (Some err)), c)
      | (None, c) => Ok (Wait req respc, c)
      end
  | Wait req respc =>
      '((b, ok), c) ← recv_resp respc c;
      Ok (if (ok : bool) then Return req (RetDecode ApiProduce b) else SawDrained req, c)
  | SawDrained req =>                     (* return nil, c.stopErr *)
      Ok (Return req (RetErr (stopErr c)), c)
  | Return _ _ => Blocked                 (* the call is over *)
  end.

Definition Fetch (pc : call) (c : connection) : result (call * connection) :=
  match pc with
  | Start req =>
      '((id, ok), c) ← recv_nextID c;
      let req := set_CorrelationID id req in
      Ok (if (ok : bool) then Register req else SawClosed req, c)
  | SawClosed req =>                      (* return nil, c.stopErr *)
      Ok (Return req (RetErr (stopErr c)), c)
  | Register req =>
      match respWaiter (CorrelationID req) c with
      | (inr err, c) => Ok (Return req (RetErr (Some (Errorf_wait err))), c)
      | (inl respc, c) => Ok (Write req respc, c)
      end
  | WriteOnly _ => Blocked                (* not a control point of this method *)
  | Write req respc =>
      match WriteTo ApiFetch req c with
      | (Some err, c) => Ok (Return req (RetErr (Some err)), c)
      | (None, c) => Ok (Wait req respc, c)
      end
  | Wait req respc =>
      '((b, ok), c) ← recv_resp respc c;
      Ok (if (ok : bool) then Return req (RetDecode ApiFetch b) else SawDrained req, c)
  | SawDrained req =>                     (* return nil, c.stopErr *)
      Ok (Return req (RetErr (stopErr c)), c)
  | Return _ _ => Blocked                 (* the call is over *)
  end.

Definition Offset (pc : call) (c : connection) : result (call * connection) :=
  match pc with
  | Start req =>
      '((id, ok), c) ← recv_nextID c;
      let req := set_CorrelationID id req in
      Ok (if (ok : bool) then Register req else SawClosed req, c)
  | SawClosed req =>                      (* return nil, c.stopErr *)
      Ok (Return req (RetErr (stopErr c)), c)
  | Register req =>
      match respWaiter (CorrelationID req) c with
      | (inr err, c) => Ok (Return req (RetErr (Some (Errorf_wait err))), c)
      | (inl respc, c) => Ok (Write (set_ReplicaID (-1) req) respc, c)   (* req.ReplicaID = -1 *)
      end
  | WriteOnly _ => Blocked                (* not a control point of this method *)
  | Write req respc =>
      match WriteTo ApiOffset req c with
      | (Some err, c) => Ok (Return req (RetErr (Some err)), c)
      | (None, c) => Ok (Wait req respc, c)
      end
  | Wait req respc =>
      '((b, ok), c) ← recv_resp respc c;
      Ok (if (ok : bool) then Return req (RetDecode ApiOffset b) else SawDrained req, c)
  | SawDrained req =>                     (* return nil, c.stopErr *)
      Ok (Return req (RetErr (stopErr c)), c)
  | Return _ _ => Blocked                 (* the call is over *)
  end.

Definition ConsumerMetadata (pc : call) (c : connection) : result (call * connection) :=
  match pc with
  | Start req =>
      '((id, ok), c) ← recv_nextID c;
      let req := set_CorrelationID id req in
      Ok (if (ok : bool) then Register req else SawClosed req, c)
  | SawClosed req =>                      (* return nil, c.stopErr *)
      Ok (Return req (RetErr (stopErr c)), c)
  | Register req =>
      match respWaiter (CorrelationID req) c with
      | (inr err, c) => Ok (Return req (RetErr (Some (Errorf_wait err))), c)
      | (inl respc, c) => Ok (Write req respc, c)
      end
  | WriteOnly _ => Blocked                (* not a control point of this method *)
  | Write req respc =>
      match WriteTo ApiConsumerMetadata req c with
      | (Some err, c) => Ok (Return req (RetErr (Some err)), c)
      | (None, c) => Ok (Wait req respc, c)
      end
  | Wait req respc =>
      '((b, ok), c) ← recv_resp respc c;
      Ok (if (ok : bool) then Return req (RetDecode ApiConsumerMetadata b) else SawDrained req, c)
  | SawDrained req =>                     (* return nil, c.stopErr *)
      Ok (Return req (RetErr (stopErr c)), c)
  | Return _ _ => Blocked                 (* the call is over *)
  end.

Definition OffsetCommit (pc : call) (c : connection) : result (call * connection) :=
  match pc with
  | Start req =>
      '((id, ok), c) ← recv_nextID c;
      let req := set_CorrelationID id req in
      Ok (if (ok : bool) then Register req else SawClosed req, c)
  | SawClosed req =>                      (* return nil, c.stopErr *)
      Ok (Return req (RetErr (stopErr c)), c)
  | Register req =>
      match respWaiter (CorrelationID req) c with
      | (inr err, c) => Ok (Return req (RetErr (Some (Errorf_wait err))), c)
      | (inl respc, c) => Ok (Write req respc, c)
      end
  | WriteOnly _ => Blocked                (* not a control point of this method *)
  | Write req respc =>
      match WriteTo ApiOffsetCommit req c with
      | (Some err, c) => Ok (Return req (RetErr (Some err)), c)
      | (None, c) => Ok (Wait req respc, c)
      end
  | Wait req respc =>
      '((b, ok), c) ← recv_resp respc c;
      Ok (if (ok : bool) then Return req (RetDecode ApiOffsetCommit b) else SawDrained req, c)
  | SawDrained req =>                     (* return nil, c.stopErr *)
      Ok (Return req (RetErr (stopErr c)), c)
  | Return _ _ => Blocked                 (* the call is over *)
  end.

Definition OffsetFetch (pc : call) (c : connection) : result (call * connection) :=
  match pc with
  | Start req =>
      '((id, ok), c) ← recv_nextID c;
      let req := set_CorrelationID id req in
      Ok (if (ok : bool) then Register req else SawClosed req, c)
  | SawClosed req =>                      (* return nil, c.stopErr *)
      Ok (Return req (RetErr (stopErr c)), c)
  | Register req =>
      match respWaiter (CorrelationID req) c with
      | (inr err, c) => Ok (Return req (RetErr (Some (Errorf_wait err))), c)
      | (inl respc, c) => Ok (Write req respc, c)
      end
  | WriteOnly _ => Blocked                (* not a control point of this method *)
  | Write req respc =>
      match WriteTo ApiOffsetFetch req c with
      | (Some err, c) => Ok (Return req (RetErr (Some err)), c)
      | (None, c) => Ok (Wait req respc, c)
      end
  | Wait req respc =>
      '((b, ok), c) ← recv_resp respc c;
      Ok (if (ok : bool) then Return req (RetDecode ApiOffsetFetch b) else SawDrained req, c)
  | SawDrained req =>                     (* return nil, c.stopErr *)
      Ok (Return req (RetErr (stopErr c)), c)
  | Return _ _ => Blocked                 (* the call is over *)
  end.

(** ** The system: one connection and the goroutines that use it *)

(** A client goroutine runs one method call or one [Close]. *)
Inductive thread : Type :=
| InCall (a : api) (pc : call)
| InClose                          (* about to run c.Close() *)
| CloseReturned (err : error).

Definition method (a : api) : call → connection → result (call * connection) :=
  match a with
  | ApiMetadata => Metadata
  | ApiProduce => Produce
  | ApiFetch => Fetch
  | ApiOffset => Offset
  | ApiConsumerMetadata => ConsumerMetadata
  | ApiOffsetCommit => OffsetCommit
  | ApiOffsetFetch => OffsetFetch
  end.

Definition thread_step (t : thread) (c : connection) : result (thread * connection) :=
  match t with
  | InCall a pc => '(pc, c) ← method a pc c; Ok (InCall a pc, c)
  | InClose => '(err, c) ← Close c; Ok (CloseReturned err, c)
  | CloseReturned _ => Blocked
  end.

Record system : Type := { conn : connection; threads : list thread }.

(** Who moves next. *)
Inductive choice : Type :=
| Reader
| Thread (i : nat).

Definition step (ch : choice) (s : system) : result system :=
  match ch with
  | Reader => c ← readRespLoop (conn s); Ok {| conn := c; threads := threads s |}
  | Thread i =>
      match threads s !! i with
      | None => Blocked
      | Some t =>
          '(t, c) ← thread_step t (conn s);
          Ok {| conn := c; threads := <[i := t]> (threads s) |}
      end
  end.

(** A schedule is run from left to right; it is valid when every choice can
    move. *)
Fixpoint run (sched : list choice) (s : system) : result system :=
  match sched with
  | [] => Ok s
  | ch :: sched => s ← step ch s; run sched s
  end.

(** A thread that has not started yet. *)
Definition fresh (t : thread) : bool :=
  match t with
  | InCall _ (Start _) | InClose => true
  | _ => false
  end.

(** The states the system can be in: a new connection over any stream, any
    number of clients, any valid schedule. *)
Definition reachable (s : system) : Prop :=
  ∃ (rw0 : stream) (ts : list thread) (c0 : connection) (sched : list choice),
    newTCPConnection (inl rw0) = inl c0 ∧ forallb fresh ts = true ∧
    closes rw0 = 0 ∧ rd_done rw0 = [] ∧
    run sched {| conn := c0; threads := ts |} = Ok s.

(** ** Auxiliary notions used by the statements *)

(** The connection made by [newTCPConnection] over an open stream. *)
Definition opened (rw0 : stream) : connection :=
  {| rw := rw0; stop_closed := false; nextID_closed := false;
     respc := ∅; stopErr := None; chans := []; logged := [];
     idloop := Some 1%Z; rdloop := RdRead |}.

(** The first [n] correlation IDs handed out by [c.nextID]. *)
Fixpoint take_ids (n : nat) (c : connection) : list Z :=
  match n with
  | O => []
  | S n =>
      match recv_nextID c with
      | Ok ((id, true), c) => id :: take_ids n c
      | _ => []
      end
  end.

(** A stream on which nothing arrives and nothing fails. *)
Definition quiet : stream :=
  {| rd_next := []; rd_done := []; wr_next := []; wr_done := [];
     close_res := None; closes := 0 |}.

(** A request that expects a response. *)
Definition req0 : request :=
  {| CorrelationID := 0; RequiredAcks := 1; ReplicaID := 0; body := [] |}.

(** The connection after the call of [closeConnection] that records the
    reason [err]: the reason is stored, [nextIDLoop] has closed [c.nextID]
    and returned, [c.stop] and the stream are closed. *)
Definition shut (err : error) (c : connection) : connection :=
  (rw_Close
     (set_stop_closed true
        (set_nextID_closed true (set_idloop None (set_stopErr err c))))).2.

(** The valid correlation IDs. *)
Definition in_range (id : Z) : Prop := (1 ≤ id ≤ MaxInt32 - 1)%Z.

(** The token and the channel that a call holds from its registration until
    it has received from the channel. *)
Definition holds (t : thread) : option (Z * chan) :=
  match t with
  | InCall _ (Write req rc) | InCall _ (Wait req rc) => Some (CorrelationID req, rc)
  | _ => None
  end.

(** A call that has its token and has not returned yet. *)
Definition token_of (t : thread) : option Z :=
  match t with
  | InCall _ (Register req) | InCall _ (WriteOnly req)
  | InCall _ (Write req _) | InCall _ (Wait req _) => Some (CorrelationID req)
  | _ => None
  end.

(** The payload a call returned for decoding, with its token and the
    decoder used. *)
Definition decoded (t : thread) : option (api * api * Z * payload) :=
  match t with
  | InCall a (Return req (RetDecode a' b)) => Some (a, a', CorrelationID req, b)
  | _ => None
  end.

(** The invariant of the system. *)
Record inv (s : system) : Prop := {
  inv_open :
    stopErr (conn s) = None →
    nextID_closed (conn s) = false ∧ stop_closed (conn s) = false ∧
    is_Some (idloop (conn s)) ∧ closes (rw (conn s)) = 0 ∧
    rdloop (conn s) ≠ RdDefer ∧ rdloop (conn s) ≠ RdExit;
  inv_shut :
    is_Some (stopErr (conn s)) →
    nextID_closed (conn s) = true ∧ stop_closed (conn s) = true ∧
    idloop (conn s) = None ∧ closes (rw (conn s)) = 1;
  inv_id : ∀ id, idloop (conn s) = Some id → in_range id;
  inv_tab_lt : ∀ tok rc,
    respc (conn s) !! tok = Some rc → rc < length (chans (conn s));
  inv_tab_open : ∀ tok rc,
    respc (conn s) !! tok = Some rc → rdloop (conn s) ≠ RdExit →
    chans (conn s) !! rc = Some false;
  inv_tab_inj : ∀ tok1 tok2 rc,
    respc (conn s) !! tok1 = Some rc → respc (conn s) !! tok2 = Some rc →
    tok1 = tok2;
  inv_route : ∀ id b,
    rdloop (conn s) = RdRoute id b → (id, b) ∈ rd_done (rw (conn s));
  inv_send : ∀ id rc b,
    rdloop (conn s) = RdSend id rc b →
    chans (conn s) !! rc = Some false ∧
    (∀ tok, respc (conn s) !! tok ≠ Some rc) ∧
    (id, b) ∈ rd_done (rw (conn s));
  inv_closech : ∀ rc,
    rdloop (conn s) = RdCloseCh rc →
    chans (conn s) !! rc = Some false ∧
    (∀ tok, respc (conn s) !! tok ≠ Some rc);
  inv_holds : ∀ i t tok rc,
    threads s !! i = Some t → holds t = Some (tok, rc) →
    rc < length (chans (conn s)) ∧
    (respc (conn s) !! tok = Some rc ∨ ∃ b, rdloop (conn s) = RdSend tok rc b);
  inv_own : ∀ i j ti tj tok tok' rc,
    threads s !! i = Some ti → threads s !! j = Some tj →
    holds ti = Some (tok, rc) → holds tj = Some (tok', rc) → i = j;
  inv_decoded : ∀ i t a a' tok b,
    threads s !! i = Some t → decoded t = Some (a, a', tok, b) →
    a' = a ∧ (tok, b) ∈ rd_done (rw (conn s));
  inv_token : ∀ i t tok,
    threads s !! i = Some t → token_of t = Some tok → in_range tok
}.

(** The kinds of moves of the system, as far as the invariant is concerned. *)
Inductive trans : system → system → Prop :=
| R_read c ts rw1 r :
    rdloop c = RdRead → closes rw1 = closes (rw c) →
    rd_done rw1
    = match r with inl f => f :: rd_done (rw c) | inr _ => rd_done (rw c) end →
    trans {| conn := c; threads := ts |}
          {| conn := set_rdloop (match r with
                                 | inl (id, b) => RdRoute id b
                                 | inr e => RdFail e
                                 end) (set_rw rw1 c);
             threads := ts |}
| R_fail_first c ts e id :
    rdloop c = RdFail e → stopErr c = None → idloop c = Some id →
    trans {| conn := c; threads := ts |}
          {| conn := set_rdloop RdDefer (shut (Some e) c); threads := ts |}
| R_fail_later c ts e :
    rdloop c = RdFail e → is_Some (stopErr c) →
    trans {| conn := c; threads := ts |}
          {| conn := set_rdloop RdDefer c; threads := ts |}
| R_route_hit c ts id b rc :
    rdloop c = RdRoute id b → respc c !! id = Some rc →
    trans {| conn := c; threads := ts |}
          {| conn := set_rdloop (RdSend id rc b)
                       (set_respc (delete id (respc c)) c);
             threads := ts |}
| R_route_miss c ts id b :
    rdloop c = RdRoute id b → respc c !! id = None →
    trans {| conn := c; threads := ts |}
          {| conn := set_rdloop RdRead (set_logged (id :: logged c) c);
             threads := ts |}
| R_closech c ts rc :
    rdloop c = RdCloseCh rc → chans c !! rc = Some false →
    trans {| conn := c; threads := ts |}
          {| conn := set_rdloop RdRead (set_chans (<[rc := true]> (chans c)) c);
             threads := ts |}
| R_defer c ts chs :
    rdloop c = RdDefer → close_all (respc c) (chans c) = Ok chs →
    trans {| conn := c; threads := ts |}
          {| conn := set_rdloop RdExit (set_chans chs c); threads := ts |}
| T_quiet c ts i t t' rw1 :
    ts !! i = Some t → closes rw1 = closes (rw c) →
    rd_done rw1 = rd_done (rw c) →
    holds t' = None ∨ holds t' = holds t →
    decoded t' = None →
    token_of t' = None ∨ token_of t' = token_of t →
    trans {| conn := c; threads := ts |}
          {| conn := set_rw rw1 c; threads := <[i := t']> ts |}
| T_close_first c ts i id :
    ts !! i = Some InClose → stopErr c = None → idloop c = Some id →
    trans {| conn := c; threads := ts |}
          {| conn := shut (Some ErrClosed) c;
             threads := <[i := CloseReturned (close_res (rw c))]> ts |}
| T_acquire c ts i a req id t' :
    ts !! i = Some (InCall a (Start req)) →
    nextID_closed c = false → idloop c = Some id →
    holds t' = None → decoded t' = None → token_of t' = Some id →
    trans {| conn := c; threads := ts |}
          {| conn := set_idloop (nextIDLoop id case_send) c;
             threads := <[i := t']> ts |}
| T_register c ts i a req req' :
    ts !! i = Some (InCall a (Register req)) →
    respc c !! CorrelationID req = None →
    CorrelationID req' = CorrelationID req →
    trans {| conn := c; threads := ts |}
          {| conn := set_respc (<[CorrelationID req := length (chans c)]> (respc c))
                       (set_chans (chans c ++ [false]) c);
             threads := <[i := InCall a (Write req' (length (chans c)))]> ts |}
| T_receive c ts i a req id rc b :
    ts !! i = Some (InCall a (Wait req rc)) →
    rdloop c = RdSend id rc b →
    trans {| conn := c; threads := ts |}
          {| conn := set_rdloop (RdCloseCh rc) c;
             threads := <[i := InCall a (Return req (RetDecode a b))]> ts |}.

(** What never changes back: a recorded reason, a closed [c.nextID], a
    closed response channel, a reader that has returned. *)
Definition settled (s s' : system) : Prop :=
  (∀ e, stopErr (conn s) = Some e → stopErr (conn s') = Some e) ∧
  (nextID_closed (conn s) = true → nextID_closed (conn s') = true) ∧
  (∀ rc, chans (conn s) !! rc = Some true → chans (conn s') !! rc = Some true) ∧
  (rdloop (conn s) = RdExit → rdloop (conn s') = RdExit).

(** The payload handed over by a step, if the step is a receive that
    completes the reader's send, with the channel it travels on. *)
Definition delivery (ch : choice) (s : system) : option (chan * payload) :=
  match ch with
  | Reader => None
  | Thread i =>
      match threads s !! i with
      | Some (InCall _ (Wait _ rc)) =>
          match recv_resp rc (conn s) with
          | Ok ((b, true), _) => Some (rc, b)
          | _ => None
          end
      | _ => None
      end
  end.

(** The payloads handed over along a schedule, in order. *)
Fixpoint deliveries (sched : list choice) (s : system) : list (chan * payload) :=
  match sched with
  | [] => []
  | ch :: sched =>
      match step ch s with
      | Ok s' => option_list (delivery ch s) ++ deliveries sched s'
      | _ => []
      end
  end.

(** Channels that have carried a payload are out of the table and are not
    being sent on. *)
Definition retired (D : list chan) (s : system) : Prop :=
  ∀ rc, rc ∈ D →
    rc < length (chans (conn s)) ∧
    (∀ tok, respc (conn s) !! tok ≠ Some rc) ∧
    (∀ id b, rdloop (conn s) ≠ RdSend id rc b).

(** A sequence of calls of [closeConnection], one reason each, with no
    other step in between: the results, in order. *)
Fixpoint close_many (errs : list err_val) (c : connection)
  : result (list error * connection) :=
  match errs with
  | [] => Ok ([], c)
  | e :: errs =>
      '(r, c) ← closeConnection (Some e) c;
      '(rs, c) ← close_many errs c;
      Ok (r :: rs, c)
  end.

(** ** Example states *)

(** A connection that one goroutine has closed while two calls are about
    to start. *)
Definition closed_sys : system :=
  match run [Thread 0]
          {| conn := opened quiet;
             threads := [InClose; InCall ApiMetadata (Start req0);
                         InCall ApiProduce (Start req0)] |} with
  | Ok s => s
  | _ => {| conn := opened quiet; threads := [] |}
  end.

(** A stream whose first read fails. *)
Definition broken : stream :=
  {| rd_next := [inr (ErrStream "EOF")]; rd_done := []; wr_next := [];
     wr_done := []; close_res := None; closes := 0 |}.

(** A caller waits for its response while the reader, after the failed
    read, is about to run its deferred function. *)
Definition draining_sys : system :=
  match run [Thread 0; Thread 0; Thread 0; Reader; Reader]
          {| conn := opened broken;
             threads := [InCall ApiFetch (Start req0)] |} with
  | Ok s => s
  | _ => {| conn := opened broken; threads := [] |}
  end.

(** Two responses that arrive in the reverse order of the requests. *)
Definition reversed : stream :=
  {| rd_next := [inl (2%Z, [x02]); inl (1%Z, [x01])]; rd_done := [];
     wr_next := []; wr_done := []; close_res := None; closes := 0 |}.

(** Two callers, a schedule in which the second response is delivered
    first, and the state at its end. *)
Definition two_callers : list thread :=
  [InCall ApiMetadata (Start req0); InCall ApiFetch (Start req0)].

Definition reversed_sched : list choice :=
  [Thread 0; Thread 1; Thread 0; Thread 1; Thread 0; Thread 1;
   Reader; Reader; Thread 1; Reader; Reader; Reader; Thread 0; Reader].

Definition routed_sys : system :=
  match run reversed_sched {| conn := opened reversed; threads := two_callers |} with
  | Ok s => s
  | _ => {| conn := opened reversed; threads := [] |}
  end.

(** Two goroutines about to close a new connection over a quiet stream. *)
Definition idle_sys : system :=
  {| conn := opened quiet; threads := [InClose; InClose] |}.

(** A produce request that asks for no acknowledgement. *)
Definition req_noack : request :=
  {| CorrelationID := 0; RequiredAcks := RequiredAcksNone; ReplicaID := 0;
     body := [] |}.

(** A caller about to send it on a new connection. *)
Definition noack_sys : system :=
  {| conn := opened quiet; threads := [InCall ApiProduce (Start req_noack)] |}.

(** A stream whose first write fails. *)
Definition unwritable : stream :=
  {| rd_next := []; rd_done := []; wr_next := [Some (ErrStream "broken pipe")];
     wr_done := []; close_res := None; closes := 0 |}.

(** A caller has registered its token and is about to write. *)
Definition writing_sys : system :=
  match run [Thread 0; Thread 0]
          {| conn := opened unwritable;
             threads := [InCall ApiMetadata (Start req0)] |} with
  | Ok s => s
  | _ => {| conn := opened unwritable; threads := [] |}
  end.

(** The reader is about to route a frame whose token nobody registered,
    while a caller waits for token 1. *)
Definition orphan_sys : system :=
  match run [Thread 0; Thread 0; Thread 0; Reader]
          {| conn := opened
               {| rd_next := [inl (7%Z, [x07]); inl (1%Z, [x01])];
                  rd_done := []; wr_next := []; wr_done := [];
                  close_res := None; closes := 0 |};
             threads := [InCall ApiOffset (Start req0)] |} with
  | Ok s => s
  | _ => {| conn := opened quiet; threads := [] |}
  end.

(** The reader has just logged the unknown token 7. *)
Definition logged_sys : system :=
  match step Reader orphan_sys with
  | Ok s => s
  | _ => orphan_sys
  end.

(** What the control point of a call says about its request: only
    [Produce] without acknowledgement is at [WriteOnly]; a [Produce] that
    registers wants an acknowledgement; an [Offset] request past its
    registration has replica ID -1. *)
Definition shaped (t : thread) : Prop :=
  match t with
  | InCall a (WriteOnly req) =>
      a = ApiProduce ∧ RequiredAcks req = RequiredAcksNone
  | InCall a (Register req) =>
      a = ApiProduce → RequiredAcks req ≠ RequiredAcksNone
  | InCall a (Write req _) | InCall a (Wait req _) =>
      (a = ApiProduce → RequiredAcks req ≠ RequiredAcksNone) ∧
      (a = ApiOffset → ReplicaID req = (-1)%Z)
  | _ => True
  end.

(** The request a goroutine is about to write, with its kind. *)
Definition writing (t : thread) : option (api * request) :=
  match t with
  | InCall a (WriteOnly req) | InCall a (Write req _) => Some (a, req)
  | _ => None
  end.

(** An [Offset] call that has written its request. *)
Definition offset_written_sys : system :=
  match run [Thread 0; Thread 0; Thread 0]
          {| conn := opened quiet;
             threads := [InCall ApiOffset (Start req0)] |} with
  | Ok s => s
  | _ => {| conn := opened quiet; threads := [] |}
  end.

(** No goroutine holds the channel [rc]. *)
Definition unheld (rc : chan) (s : system) : Prop :=
  ∀ i t tok, threads s !! i = Some t → holds t ≠ Some (tok, rc).

(** The first write fails and the response to it arrives all the same. *)
Definition late_answer : stream :=
  {| rd_next := [inl (1%Z, [x01])]; rd_done := [];
     wr_next := [Some (ErrStream "broken pipe")]; wr_done := [];
     close_res := None; closes := 0 |}.

(** The first caller has returned its write error, the second waits for its
    response, and the reader is sending the first caller's response. *)
Definition stuck_sys : system :=
  match run [Thread 0; Thread 0; Thread 0; Thread 1; Thread 1; Thread 1;
             Reader; Reader]
          {| conn := opened late_answer; threads := two_callers |} with
  | Ok s => s
  | _ => {| conn := opened late_answer; threads := [] |}
  end.


(** Two callers wait for responses that never come, and a third goroutine is
    about to close the connection. *)
Definition waiting_sys : system :=
  match run [Thread 0; Thread 0; Thread 0; Thread 1; Thread 1; Thread 1]
          {| conn := opened quiet;
             threads := [InCall ApiMetadata (Start req0);
                         InCall ApiOffsetFetch (Start req0); InClose] |} with
  | Ok s => s
  | _ => {| conn := opened quiet; threads := [] |}
  end.

(** The request as it is written: [Offset] sets the replica ID. *)
Definition as_written (a : api) (req : request) : request :=
  match a with
  | ApiOffset => set_ReplicaID (-1) req
  | _ => req
  end.

(** The schedule of one undisturbed exchange of goroutine [i]: take the
    token, register, write; the reader reads and routes; the caller
    receives; the reader closes the channel. *)
Definition exchange_sched (i : nat) : list choice :=
  [Thread i; Thread i; Thread i; Reader; Reader; Thread i; Reader].

(** A new connection on which the response to the first request is already
    on its way, and an [Offset] call about to start. *)
Definition answered_sys : system :=
  {| conn := opened {| rd_next := [inl (1%Z, [x01])]; rd_done := [];
                       wr_next := []; wr_done := []; close_res := None;
                       closes := 0 |};
     threads := [InCall ApiOffset (Start req0)] |}.

(** * Properties *)

(** ** The correlation-ID source *)

Lemma int32_small (z : Z) :
  (- 2 ^ 31 ≤ z < 2 ^ 31)%Z → int32 z = z.
Proof.
  intros H. unfold int32.
  rewrite Z.mod_small by lia. lia.
Qed.

Lemma nextIDLoop_send (id : Z) :
  (1 ≤ id ≤ MaxInt32 - 1)%Z →
  nextIDLoop id case_send
  = Some (if (id =? MaxInt32 - 1)%Z then 1%Z else (id + 1)%Z).
Proof.
  intros H. unfold nextIDLoop, MaxInt32 in *.
  rewrite int32_small by lia.
  destruct (Z.eqb_spec (id + 1) 2147483647), (Z.eqb_spec id (2147483647 - 1));
    (reflexivity || lia).
Qed.

Lemma nextIDLoop_send_range (id id' : Z) :
  (1 ≤ id ≤ MaxInt32 - 1)%Z →
  nextIDLoop id case_send = Some id' →
  (1 ≤ id' ≤ MaxInt32 - 1)%Z.
Proof.
  intros H. rewrite nextIDLoop_send by done.
  unfold MaxInt32 in *.
  destruct (Z.eqb_spec id (2147483647 - 1)); intros [= <-]; lia.
Qed.

Lemma take_ids_S (n : nat) (c : connection) (id : Z) :
  nextID_closed c = false → idloop c = Some id →
  take_ids (S n) c = id :: take_ids n (set_idloop (nextIDLoop id case_send) c).
Proof.
  intros Hcl Hid. cbn [take_ids]. unfold recv_nextID. by rewrite Hcl, Hid.
Qed.

Lemma take_ids_lookup (n : nat) :
  ∀ (c : connection) (id : Z) (k : nat),
    nextID_closed c = false → idloop c = Some id →
    (1 ≤ id ≤ MaxInt32 - 1)%Z → k < n →
    take_ids n c !! k = Some (1 + (id - 1 + Z.of_nat k) mod (MaxInt32 - 1))%Z.
Proof.
  induction n as [|n IH]; intros c id k Hcl Hid Hr Hk; [lia|].
  rewrite (take_ids_S n c id Hcl Hid).
  destruct k as [|k].
  - simpl. f_equal. rewrite Z.add_0_r, Z.mod_small; unfold MaxInt32 in *; lia.
  - cbn [lookup list_lookup]. rewrite nextIDLoop_send by done.
    erewrite IH; [| done | reflexivity | | lia].
    + do 2 f_equal. unfold MaxInt32 in *.
      destruct (Z.eqb_spec id (2147483647 - 1)) as [->|Hne].
      * replace (2147483647 - 1 - 1 + Z.of_nat (S k))%Z
          with (1 - 1 + Z.of_nat k + 1 * (2147483647 - 1))%Z by lia.
        by rewrite Z.mod_add by lia.
      * f_equal. lia.
    + unfold MaxInt32 in *.
      destruct (Z.eqb_spec id (2147483647 - 1)); lia.
Qed.

Lemma take_ids_length (n : nat) :
  ∀ (c : connection) (id : Z),
    nextID_closed c = false → idloop c = Some id →
    (1 ≤ id ≤ MaxInt32 - 1)%Z → length (take_ids n c) = n.
Proof.
  induction n as [|n IH]; intros c id Hcl Hid Hr; [done|].
  rewrite (take_ids_S n c id Hcl Hid), length_cons.
  rewrite nextIDLoop_send by done. f_equal.
  eapply IH; [done | reflexivity |].
  unfold MaxInt32 in *. destruct (Z.eqb_spec id (2147483647 - 1)); lia.
Qed.

(** The sequence of tokens handed out by a new connection. *)
Lemma token_sequence (rw0 : stream) :
  idloop (opened rw0) = Some 1%Z ∧
  newTCPConnection (inl rw0) = inl (opened rw0) ∧
  (∀ id : Z, (1 ≤ id ≤ MaxInt32 - 1)%Z →
     nextIDLoop id case_send
     = Some (if (id =? MaxInt32 - 1)%Z then 1%Z else (id + 1)%Z)) ∧
  (∀ n k : nat, k < n →
     take_ids n (opened rw0) !! k
     = Some (1 + Z.of_nat k mod (2 ^ 31 - 2))%Z) ∧
  (∀ (n : nat) (id : Z), id ∈ take_ids n (opened rw0) →
     (1 ≤ id ≤ 2 ^ 31 - 2)%Z ∧ id ≠ 0%Z ∧ id ≠ MaxInt32) ∧
  (∀ n : nat, length (take_ids n (opened rw0)) = n).
Proof.
  assert (Hk : ∀ n k : nat, k < n →
     take_ids n (opened rw0) !! k
     = Some (1 + Z.of_nat k mod (2 ^ 31 - 2))%Z).
  { intros n k Hk.
    rewrite (take_ids_lookup n (opened rw0) 1 k); unfold MaxInt32; done. }
  assert (Hlen : ∀ n : nat, length (take_ids n (opened rw0)) = n).
  { intros n. apply (take_ids_length n (opened rw0) 1); unfold MaxInt32; done. }
  assert (Hin : ∀ (n : nat) (id : Z), id ∈ take_ids n (opened rw0) →
     (1 ≤ id ≤ 2 ^ 31 - 2)%Z).
  { intros n id [k Hk']%list_elem_of_lookup.
    pose proof (lookup_lt_Some _ _ _ Hk') as Hlt. rewrite Hlen in Hlt.
    rewrite (Hk n k Hlt) in Hk'. injection Hk' as <-.
    pose proof (Z.mod_pos_bound (Z.of_nat k) (2 ^ 31 - 2)). lia. }
  split; [done|]. split; [done|]. split; [apply nextIDLoop_send|].
  split; [done|]. split; [|done].
  intros n id Hid. specialize (Hin n id Hid). unfold MaxInt32. lia.
Qed.

(** ** The table of pending responses *)

Lemma respWaiter_conflict (id : Z) (c : connection) (ch : chan) :
  respc c !! id = Some ch →
  respWaiter id c = (inr (Errorf_conflict id), c).
Proof. intros H. unfold respWaiter. by rewrite H. Qed.

Lemma respWaiter_fresh (id : Z) (c : connection) :
  respc c !! id = None →
  respWaiter id c
  = (inl (length (chans c)),
     set_respc (<[id := length (chans c)]> (respc c))
       (set_chans (chans c ++ [false]) c)).
Proof. intros H. unfold respWaiter. by rewrite H. Qed.

(** Every method hands the token to [respWaiter] at its [Register] point
    and turns a conflict into its own error. *)
Lemma method_register (a : api) (req : request) (c : connection) :
  method a (Register req) c
  = match respWaiter (CorrelationID req) c with
    | (inr err, c) => Ok (Return req (RetErr (Some (Errorf_wait err))), c)
    | (inl rc, c) =>
        Ok (Write (match a with ApiOffset => set_ReplicaID (-1) req | _ => req end) rc, c)
    end.
Proof. destruct a; reflexivity. Qed.

(** C5.  Registering a token that is pending returns the conflict error and
    leaves the connection, hence the table and the existing entry, as they
    were, and every method reports it as an error; registering a token that
    is not pending adds exactly one entry, bound to a new open channel, and
    returns that channel. *)
Theorem C5_register_conflict (correlationID : Z) (c : connection) :
  (∀ ch : chan, respc c !! correlationID = Some ch →
     respWaiter correlationID c = (inr (Errorf_conflict correlationID), c) ∧
     ∀ (a : api) (req : request), CorrelationID req = correlationID →
       method a (Register req) c
       = Ok (Return req
               (RetErr (Some (Errorf_wait (Errorf_conflict correlationID)))), c)) ∧
  (respc c !! correlationID = None →
     ∃ (ch : chan) (c' : connection),
       respWaiter correlationID c = (inl ch, c') ∧
       respc c' = <[correlationID := ch]> (respc c) ∧
       respc c' !! correlationID = Some ch ∧
       (∀ id : Z, id ≠ correlationID → respc c' !! id = respc c !! id) ∧
       size (respc c') = S (size (respc c)) ∧
       chans c !! ch = None ∧ chans c' !! ch = Some false ∧
       (∀ k : chan, k ≠ ch → chans c' !! k = chans c !! k) ∧
       rw c' = rw c ∧ stopErr c' = stopErr c ∧ idloop c' = idloop c ∧
       rdloop c' = rdloop c).
Proof.
  split.
  - intros ch Hch. split; [by eapply respWaiter_conflict|].
    intros a req <-. rewrite method_register.
    by rewrite (respWaiter_conflict _ _ _ Hch).
  - intros Hnone. eexists _, _. split; [by apply respWaiter_fresh|].
    cbn. split; [done|]. split; [by rewrite lookup_insert_eq|].
    split; [by intros id Hid; rewrite lookup_insert_ne|].
    split; [by apply map_size_insert_None|].
    split; [by apply lookup_ge_None_2|].
    split; [by rewrite lookup_app_r, Nat.sub_diag|].
    split; [|done].
    intros k Hk. destruct (decide (k < length (chans c))) as [Hlt|Hge].
    + by rewrite lookup_app_l.
    + rewrite !lookup_ge_None_2; [done | lia |].
      rewrite length_app. simpl. lia.
Qed.

(** ** Orphan responses *)

(** C6.  When the reader routes a frame whose token has no pending entry it
    logs the token and goes back to reading: no panic, no wait; the payload
    reaches no channel and no client; the table and the channels are as
    before, and a pending entry still gets the next frame carrying its token. *)
Theorem C6_orphan_discarded (s : system) (correlationID : Z) (b : payload) :
  rdloop (conn s) = RdRoute correlationID b →
  respc (conn s) !! correlationID = None →
  ∃ s' : system,
    step Reader s = Ok s' ∧
    rdloop (conn s') = RdRead ∧
    logged (conn s') = correlationID :: logged (conn s) ∧
    threads s' = threads s ∧
    respc (conn s') = respc (conn s) ∧
    chans (conn s') = chans (conn s) ∧
    stopErr (conn s') = stopErr (conn s) ∧
    rw (conn s') = rw (conn s) ∧
    ∀ (id : Z) (rc : chan) (b' : payload) (rest : list (Z * payload + err_val)),
      respc (conn s) !! id = Some rc →
      rd_next (rw (conn s)) = inl (id, b') :: rest →
      ∃ s2 : system,
        run [Reader; Reader] s' = Ok s2 ∧
        rdloop (conn s2) = RdSend id rc b' ∧
        respc (conn s2) = delete id (respc (conn s)).
Proof.
  intros Hrd Hnone. destruct s as [c ts]. simpl in *.
  assert (Hdel : delete correlationID (respc c) = respc c)
    by by apply delete_id.
  eexists. split.
  { unfold step, readRespLoop. cbn. rewrite Hrd, Hnone. cbn. reflexivity. }
  cbn. rewrite Hdel. repeat (split; [done|]).
  intros id rc b' rest Hid Hnext.
  eexists. split.
  { unfold run, step, readRespLoop, ReadResp. cbn. rewrite Hnext. cbn.
    rewrite Hid. cbn. reflexivity. }
  done.
Qed.

(** ** Every step is one of the kinds of moves *)

Local Arguments nextIDLoop : simpl never.

Lemma set_rw_id (c : connection) : set_rw (rw c) c = c.
Proof. by destruct c. Qed.

Lemma set_respc_id (c : connection) : set_respc (respc c) c = c.
Proof. by destruct c. Qed.

Lemma ReadResp_Ok (c c1 : connection) (r : Z * payload + err_val) :
  ReadResp c = Ok (r, c1) →
  ∃ rw1, c1 = set_rw rw1 c ∧ closes rw1 = closes (rw c) ∧
    rd_done rw1
    = match r with inl f => f :: rd_done (rw c) | inr _ => rd_done (rw c) end.
Proof.
  unfold ReadResp. destruct (rd_next (rw c)) as [|r0 rest] eqn:Hn.
  - destruct (closes (rw c)) eqn:Hc; [done|]. intros [= <- <-].
    exists (rw c). by rewrite set_rw_id, Hc.
  - intros [= <- <-]. eexists. split; [reflexivity|]. by destruct r0.
Qed.

Lemma closeConnection_Ok (e : err_val) (c c1 : connection) (r : error) :
  closeConnection (Some e) c = Ok (r, c1) →
  (stopErr c = None ∧ stop_closed c = false ∧ (∃ id, idloop c = Some id) ∧
   c1 = shut (Some e) c ∧ r = close_res (rw c)) ∨
  (∃ e0, stopErr c = Some e0 ∧ c1 = c ∧ r = Some e0).
Proof.
  unfold closeConnection. destruct (stopErr c) as [e0|] eqn:He.
  - intros [= <- <-]. right. by exists e0.
  - cbn. destruct (stop_closed c) eqn:Hs; [done|].
    destruct (idloop c) as [id|] eqn:Hi; [|done].
    intros [= <- <-]. left. repeat split; eauto.
Qed.

Lemma T_silent (c : connection) (ts : list thread) (i : nat) (t t' : thread) :
  ts !! i = Some t →
  holds t' = None ∨ holds t' = holds t →
  decoded t' = None →
  token_of t' = None ∨ token_of t' = token_of t →
  trans {| conn := c; threads := ts |}
        {| conn := c; threads := <[i := t']> ts |}.
Proof.
  intros. rewrite <- (set_rw_id c) at 2. by eapply T_quiet.
Qed.

Lemma recv_nextID_Ok (c c1 : connection) (id : Z) (ok : bool) :
  recv_nextID c = Ok ((id, ok), c1) →
  (ok = false ∧ id = 0%Z ∧ nextID_closed c = true ∧ c1 = c) ∨
  (ok = true ∧ nextID_closed c = false ∧ idloop c = Some id ∧
   c1 = set_idloop (nextIDLoop id case_send) c).
Proof.
  unfold recv_nextID. destruct (nextID_closed c) eqn:Hc.
  - intros [= <- <- <-]. by left.
  - destruct (idloop c) as [id0|] eqn:Hi; [|done].
    intros [= <- <- <-]. by right.
Qed.

Lemma recv_resp_Ok (rc : chan) (c c1 : connection) (b : payload) (ok : bool) :
  recv_resp rc c = Ok ((b, ok), c1) →
  (ok = false ∧ b = [] ∧ chans c !! rc = Some true ∧ c1 = c) ∨
  (ok = true ∧ chans c !! rc ≠ Some true ∧
   (∃ id, rdloop c = RdSend id rc b) ∧ c1 = set_rdloop (RdCloseCh rc) c).
Proof.
  unfold recv_resp. intros H.
  destruct (chans c !! rc) as [[]|] eqn:Hch.
  - injection H as <- <- <-. by left.
  - destruct (rdloop c) eqn:Hr; try done. case_decide; [|done]. subst.
    injection H as <- <- <-. right. eauto.
  - destruct (rdloop c) eqn:Hr; try done. case_decide; [|done]. subst.
    injection H as <- <- <-. right. eauto.
Qed.

Lemma WriteTo_eq (a : api) (req : request) (c : connection) :
  ∃ rw1, (WriteTo a req c).2 = set_rw rw1 c ∧ closes rw1 = closes (rw c) ∧
    rd_done rw1 = rd_done (rw c).
Proof. unfold WriteTo. cbn. eexists. split; [reflexivity|]. done. Qed.

(** The seven methods have one shape; they differ in the decoder, in
    [Produce]'s path without acknowledgement and in [Offset]'s replica ID. *)
Lemma method_start (a : api) (req : request) (c : connection) :
  method a (Start req) c
  = '((id, ok), c) ← recv_nextID c;
    let req := set_CorrelationID id req in
    if negb ok then Ok (SawClosed req, c)
    else match a with
         | ApiProduce =>
             if (RequiredAcks req =? RequiredAcksNone)%Z
             then Ok (WriteOnly req, c) else Ok (Register req, c)
         | _ => Ok (Register req, c)
         end.
Proof.
  destruct a; cbn; destruct (recv_nextID c) as [[[id []] c1]| |]; reflexivity.
Qed.

Lemma method_stopErr (a : api) (req : request) (c : connection) :
  method a (SawClosed req) c = Ok (Return req (RetErr (stopErr c)), c) ∧
  method a (SawDrained req) c = Ok (Return req (RetErr (stopErr c)), c).
Proof. by destruct a. Qed.

Lemma method_write (a : api) (req : request) (rc : chan) (c : connection) :
  method a (Write req rc) c
  = match WriteTo a req c with
    | (Some err, c) => Ok (Return req (RetErr (Some err)), c)
    | (None, c) => Ok (Wait req rc, c)
    end.
Proof. by destruct a. Qed.

Lemma method_wait (a : api) (req : request) (rc : chan) (c : connection) :
  method a (Wait req rc) c
  = '((b, ok), c) ← recv_resp rc c;
    Ok (if (ok : bool) then Return req (RetDecode a b) else SawDrained req, c).
Proof. by destruct a. Qed.

Lemma method_trans (a : api) (pc pc' : call) (c c' : connection)
    (ts : list thread) (i : nat) :
  ts !! i = Some (InCall a pc) →
  method a pc c = Ok (pc', c') →
  trans {| conn := c; threads := ts |}
        {| conn := c'; threads := <[i := InCall a pc']> ts |}.
Proof.
  intros Hi Hm. destruct pc as [req|req|req|req|req rc|req rc|req|req r].
  - (* Start *)
    rewrite method_start in Hm.
    destruct (recv_nextID c) as [[[id ok] c1]| |] eqn:Hrecv; [|done..].
    cbn in Hm.
    apply recv_nextID_Ok in Hrecv as [(-> & -> & Hcl & ->)|(-> & Hcl & Hid & ->)];
      cbn in Hm.
    + simplify_eq. eapply T_silent; eauto.
    + destruct a; repeat case_match; simplify_eq;
        by eapply (T_acquire c ts i _ req id).
  - (* SawClosed *)
    rewrite (proj1 (method_stopErr a req c)) in Hm. simplify_eq.
    eapply T_silent; eauto.
  - (* Register *)
    rewrite method_register in Hm. unfold respWaiter in Hm.
    destruct (respc c !! CorrelationID req) as [rc|] eqn:Htab; simplify_eq.
    + eapply T_silent; eauto.
    + cbn. eapply T_register; eauto. by destruct a.
  - (* WriteOnly *)
    destruct a; try done. unfold method, Produce in Hm.
    destruct (WriteTo_eq ApiProduce req c) as (rw1 & Hrw & ? & ?).
    destruct (WriteTo ApiProduce req c) as [err c1]. cbn in Hrw. simplify_eq.
    eapply T_quiet; eauto.
  - (* Write *)
    rewrite method_write in Hm.
    destruct (WriteTo_eq a req c) as (rw1 & Hrw & ? & ?).
    destruct (WriteTo a req c) as [[e|] c1]; cbn in Hrw; simplify_eq;
      eapply T_quiet; eauto.
  - (* Wait *)
    rewrite method_wait in Hm.
    destruct (recv_resp rc c) as [[[b ok] c1]| |] eqn:Hrecv; [|done..].
    cbn in Hm.
    apply recv_resp_Ok in Hrecv
      as [(-> & -> & Hcl & ->)|(-> & Hcl & [id Hrd] & ->)]; simplify_eq.
    + eapply T_silent; eauto.
    + eapply T_receive; eauto.
  - (* SawDrained *)
    rewrite (proj2 (method_stopErr a req c)) in Hm. simplify_eq.
    eapply T_silent; eauto.
  - (* Return *)
    destruct a; done.
Qed.

Lemma step_trans (ch : choice) (s s' : system) :
  step ch s = Ok s' → trans s s'.
Proof.
  destruct s as [c ts]. destruct ch as [|i]; cbn.
  - destruct (readRespLoop c) as [c'| |] eqn:Hr; [|done..].
    intros [= <-]. unfold readRespLoop in Hr.
    destruct (rdloop c) as [|e|id b|id rc b|rc| |] eqn:Hrd.
    + destruct (ReadResp c) as [[r c1]| |] eqn:Hread; [|done..].
      apply ReadResp_Ok in Hread as (rw1 & -> & ? & ?). cbn in Hr.
      replace c' with
        (set_rdloop (match r with
                     | inl (id, b) => RdRoute id b
                     | inr e => RdFail e
                     end) (set_rw rw1 c))
        by (destruct r as [[??]|?]; by simplify_eq).
      by eapply R_read.
    + destruct (closeConnection (Some e) c) as [[r c1]| |] eqn:Hcl; [|done..].
      cbn in Hr. simplify_eq.
      apply closeConnection_Ok in Hcl
        as [(? & ? & [id ?] & -> & ->)|(e0 & ? & -> & ->)].
      * by eapply R_fail_first.
      * by eapply R_fail_later.
    + destruct (respc c !! id) as [rc|] eqn:Htab; simplify_eq.
      * by eapply R_route_hit.
      * rewrite delete_id, set_respc_id by done. by eapply R_route_miss.
    + by repeat case_match.
    + unfold close_chan in Hr.
      destruct (chans c !! rc) as [[]|] eqn:Hch; try done.
      cbn in Hr. simplify_eq. by eapply R_closech.
    + destruct (close_all (respc c) (chans c)) as [chs| |] eqn:Hall;
        try done. cbn in Hr. simplify_eq. by eapply R_defer.
    + done.
  - destruct (ts !! i) as [t|] eqn:Hi; [|done].
    destruct (thread_step t c) as [[t' c']| |] eqn:Ht; [|done..].
    cbn. intros [= <-]. destruct t as [a pc| |err]; cbn in Ht.
    + destruct (method a pc c) as [[pc' c1]| |] eqn:Hm; [|done..].
      cbn in Ht. simplify_eq. by eapply method_trans.
    + unfold Close in Ht.
      destruct (closeConnection (Some ErrClosed) c) as [[r c1]| |] eqn:Hcl;
        [|done..].
      cbn in Ht. simplify_eq.
      apply closeConnection_Ok in Hcl
        as [(? & ? & [id ?] & -> & ->)|(e0 & ? & -> & ->)].
      * by eapply T_close_first.
      * eapply T_silent; eauto.
    + done.
Qed.

(** ** Closing every pending channel *)

Lemma close_chan_Ok (ch : chan) (chs chs' : list bool) :
  close_chan ch chs = Ok chs' →
  chs !! ch = Some false ∧ chs' = <[ch := true]> chs.
Proof.
  unfold close_chan. destruct (chs !! ch) as [[]|]; try done.
  by intros [= <-].
Qed.

Lemma close_list_Ok (l : list (Z * chan)) (chs chs' : list bool) :
  foldr (λ kv acc, chs ← acc; close_chan kv.2 chs) (Ok chs) l = Ok chs' →
  length chs' = length chs ∧
  (∀ kv, kv ∈ l → chs' !! kv.2 = Some true) ∧
  (∀ k, k ∉ l.*2 → chs' !! k = chs !! k).
Proof.
  revert chs'. induction l as [|kv l IH]; intros chs' H; cbn in H.
  - injection H as <-. split; [done|]. split; [|done].
    intros kv Hkv. by apply elem_of_nil in Hkv.
  - destruct (foldr _ _ l) as [chs1| |] eqn:Hl; try done. cbn in H.
    apply close_chan_Ok in H as [Hopen ->].
    destruct (IH chs1 eq_refl) as (Hlen & Hcl & Hout).
    split; [by rewrite length_insert|]. split.
    + intros kv' [->|Hin]%elem_of_cons.
      * apply list_lookup_insert_eq. by eapply lookup_lt_Some.
      * destruct (decide (kv.2 = kv'.2)) as [Heq|Hne].
        -- rewrite <- Heq. apply list_lookup_insert_eq. by eapply lookup_lt_Some.
        -- rewrite list_lookup_insert_ne by done. by apply Hcl.
    + intros k Hk. rewrite fmap_cons, not_elem_of_cons in Hk.
      destruct Hk as [Hne Hk]. rewrite list_lookup_insert_ne by done.
      by apply Hout.
Qed.

Lemma close_list_total (l : list (Z * chan)) (chs : list bool) :
  NoDup l.*2 → (∀ kv, kv ∈ l → chs !! kv.2 = Some false) →
  ∃ chs', foldr (λ kv acc, chs ← acc; close_chan kv.2 chs) (Ok chs) l = Ok chs'.
Proof.
  induction l as [|kv l IH]; intros Hnd Hopen; cbn.
  - by eexists.
  - rewrite fmap_cons in Hnd. apply NoDup_cons in Hnd as [Hnotin Hnd].
    destruct IH as [chs1 H1]; [done | |].
    { intros kv' Hkv'. apply Hopen. by right. }
    rewrite H1. cbn. unfold close_chan.
    destruct (close_list_Ok _ _ _ H1) as (_ & _ & Hout).
    rewrite (Hout _ Hnotin), (Hopen kv) by left. by eexists.
Qed.

Lemma close_all_Ok (m : gmap Z chan) (chs chs' : list bool) :
  close_all m chs = Ok chs' →
  length chs' = length chs ∧
  (∀ tok rc, m !! tok = Some rc → chs' !! rc = Some true) ∧
  (∀ k, (∀ tok, m !! tok ≠ Some k) → chs' !! k = chs !! k).
Proof.
  intros H. apply close_list_Ok in H as (Hlen & Hcl & Hout).
  split; [done|]. split.
  - intros tok rc Hm. by apply (Hcl (tok, rc)), elem_of_map_to_list.
  - intros k Hk. apply Hout. intros [[tok rc] [-> Hin]]%list_elem_of_fmap.
    apply elem_of_map_to_list in Hin. by apply (Hk tok).
Qed.

Lemma close_all_total (m : gmap Z chan) (chs : list bool) :
  (∀ tok1 tok2 rc, m !! tok1 = Some rc → m !! tok2 = Some rc → tok1 = tok2) →
  (∀ tok rc, m !! tok = Some rc → chs !! rc = Some false) →
  ∃ chs', close_all m chs = Ok chs'.
Proof.
  intros Hinj Hopen. apply close_list_total.
  - apply NoDup_fmap_2_strong; [|apply NoDup_map_to_list].
    intros [t1 r1] [t2 r2] H1%elem_of_map_to_list H2%elem_of_map_to_list Heq.
    cbn in Heq. subst r2. by rewrite (Hinj t1 t2 r1).
  - intros [tok rc] Hin%elem_of_map_to_list. by eapply Hopen.
Qed.

(** ** The invariant holds in every reachable state *)

Lemma thread_update (ts : list thread) (i j : nat) (t' t : thread) :
  <[i := t']> ts !! j = Some t →
  (j = i ∧ t = t') ∨ (j ≠ i ∧ ts !! j = Some t).
Proof.
  intros [(-> & -> & _)|[? ?]]%list_lookup_insert_Some; eauto.
Qed.

Lemma nextIDLoop_send_Some (id : Z) : is_Some (nextIDLoop id case_send).
Proof. unfold nextIDLoop. eauto. Qed.

Lemma trans_open (s s' : system) :
  trans s s' → inv s →
  stopErr (conn s') = None →
  nextID_closed (conn s') = false ∧ stop_closed (conn s') = false ∧
  is_Some (idloop (conn s')) ∧ closes (rw (conn s')) = 0 ∧
  rdloop (conn s') ≠ RdDefer ∧ rdloop (conn s') ≠ RdExit.
Proof.
  intros Ht [Hopen Hshut _ _ _ _ _ _ _ _ _ _ _].
  destruct Ht; cbn in *; intros Hs; try done.
  all: try (destruct (Hopen Hs) as (? & ? & ? & ? & ? & ?)).
  all: try by (repeat split; try congruence; try done).
  - by destruct r as [[??]|?]; repeat split; try congruence.
  - destruct H0; congruence.
Qed.

Lemma trans_shut (s s' : system) :
  trans s s' → inv s →
  is_Some (stopErr (conn s')) →
  nextID_closed (conn s') = true ∧ stop_closed (conn s') = true ∧
  idloop (conn s') = None ∧ closes (rw (conn s')) = 1.
Proof.
  intros Ht [Hopen Hshut _ _ _ _ _ _ _ _ _ _ _].
  destruct Ht; cbn in *; intros Hs.
  all: try (destruct (Hshut Hs) as (? & ? & ? & ?); repeat split; congruence).
  - destruct (Hopen H0) as (? & ? & ? & -> & ? & ?). done.
  - destruct (Hopen H0) as (? & ? & ? & -> & ? & ?). done.
Qed.

Lemma trans_id (s s' : system) :
  trans s s' → inv s → ∀ id, idloop (conn s') = Some id → in_range id.
Proof.
  intros Ht Hinv. pose proof (inv_id s Hinv) as Hid.
  destruct Ht; cbn in *; try done.
  intros id' Hid'. eapply nextIDLoop_send_range; [|done]. by apply Hid.
Qed.

Lemma trans_tab_lt (s s' : system) :
  trans s s' → inv s →
  ∀ tok rc, respc (conn s') !! tok = Some rc → rc < length (chans (conn s')).
Proof.
  intros Ht Hinv. pose proof (inv_tab_lt s Hinv) as Hlt.
  destruct Ht; cbn in *; try done; intros tok rc0 Htab.
  - apply lookup_delete_Some in Htab as [_ Htab]. eauto.
  - rewrite length_insert. eauto.
  - apply close_all_Ok in H0 as (-> & _). eauto.
  - rewrite length_app. cbn.
    apply lookup_insert_Some in Htab as [[_ <-]|[_ Htab]]; [lia|].
    apply Hlt in Htab. lia.
Qed.

Lemma trans_tab_open (s s' : system) :
  trans s s' → inv s →
  ∀ tok rc, respc (conn s') !! tok = Some rc → rdloop (conn s') ≠ RdExit →
    chans (conn s') !! rc = Some false.
Proof.
  intros Ht Hinv. pose proof (inv_tab_open s Hinv) as Hop.
  pose proof (inv_closech s Hinv) as Hcch.
  pose proof (inv_tab_lt s Hinv) as Hlt.
  destruct Ht; cbn in *; intros tok rc0 Htab Hex; try done.
  all: try by (eapply Hop; [done | congruence]).
  - apply lookup_delete_Some in Htab as [_ Htab].
    eapply Hop; [done | congruence].
  - destruct (Hcch _ H) as [_ Hnot].
    rewrite list_lookup_insert_ne; [eapply Hop; [done | congruence]|].
    intros ->. by eapply Hnot.
  - apply lookup_insert_Some in Htab as [[_ <-]|[_ Htab]].
    + by rewrite lookup_app_r, Nat.sub_diag.
    + rewrite lookup_app_l by eauto. eauto.
Qed.

Lemma trans_tab_inj (s s' : system) :
  trans s s' → inv s →
  ∀ tok1 tok2 rc, respc (conn s') !! tok1 = Some rc →
    respc (conn s') !! tok2 = Some rc → tok1 = tok2.
Proof.
  intros Ht Hinv. pose proof (inv_tab_inj s Hinv) as Hinj.
  pose proof (inv_tab_lt s Hinv) as Hlt.
  destruct Ht; cbn in *; try done; intros tok1 tok2 rc0 H1' H2'.
  - apply lookup_delete_Some in H1' as [_ H1'].
    apply lookup_delete_Some in H2' as [_ H2']. eauto.
  - apply lookup_insert_Some in H1' as [[<- <-]|[_ H1']];
      apply lookup_insert_Some in H2' as [[<- ?]|[_ H2']]; try done.
    + apply Hlt in H2'. lia.
    + apply Hlt in H1'. lia.
    + eauto.
Qed.

Lemma trans_route (s s' : system) :
  trans s s' → inv s →
  ∀ id b, rdloop (conn s') = RdRoute id b → (id, b) ∈ rd_done (rw (conn s')).
Proof.
  intros Ht Hinv. pose proof (inv_route s Hinv) as Hroute.
  destruct Ht; cbn in *; try done; intros id' b' Hrd.
  all: try by eauto.
  all: try by (rewrite H1; eauto).
  destruct r as [[??]|?]; simplify_eq. rewrite H1. left.
Qed.

Lemma trans_send (s s' : system) :
  trans s s' → inv s →
  ∀ id rc b, rdloop (conn s') = RdSend id rc b →
    chans (conn s') !! rc = Some false ∧
    (∀ tok, respc (conn s') !! tok ≠ Some rc) ∧
    (id, b) ∈ rd_done (rw (conn s')).
Proof.
  intros Ht Hinv. pose proof (inv_send s Hinv) as Hsend.
  pose proof (inv_tab_open s Hinv) as Hop.
  pose proof (inv_tab_inj s Hinv) as Hinj.
  pose proof (inv_route s Hinv) as Hroute.
  destruct Ht; cbn in *; intros id' rc' b' Hrd; try done.
  all: try by (rewrite ?H0, ?H1; eauto).
  - by destruct r as [[??]|?].
  - simplify_eq. split; [eapply Hop; [done | congruence]|]. split; [|eauto].
    intros tok [Hne Htab]%lookup_delete_Some.
    by rewrite (Hinj _ _ _ Htab H0) in Hne.
  - destruct (Hsend _ _ _ Hrd) as (Hch & Hnot & Hin).
    pose proof (lookup_lt_Some _ _ _ Hch) as Hlt.
    split; [by rewrite lookup_app_l|]. split; [|done].
    intros tok [[_ <-]|[_ Htab]]%lookup_insert_Some; [lia|]. by eapply Hnot.
Qed.

Lemma trans_closech (s s' : system) :
  trans s s' → inv s →
  ∀ rc, rdloop (conn s') = RdCloseCh rc →
    chans (conn s') !! rc = Some false ∧
    (∀ tok, respc (conn s') !! tok ≠ Some rc).
Proof.
  intros Ht Hinv. pose proof (inv_send s Hinv) as Hsend.
  pose proof (inv_closech s Hinv) as Hcch.
  destruct Ht; cbn in *; intros rc' Hrd; try done.
  all: try by eauto.
  - by destruct r as [[??]|?].
  - destruct (Hcch _ Hrd) as (Hch & Hnot).
    pose proof (lookup_lt_Some _ _ _ Hch) as Hlt.
    split; [by rewrite lookup_app_l|].
    intros tok [[_ <-]|[_ Htab]]%lookup_insert_Some; [lia|]. by eapply Hnot.
  - simplify_eq. destruct (Hsend _ _ _ H0) as (? & ? & ?). done.
Qed.

Lemma trans_holds (s s' : system) :
  trans s s' → inv s →
  ∀ i t tok rc, threads s' !! i = Some t → holds t = Some (tok, rc) →
    rc < length (chans (conn s')) ∧
    (respc (conn s') !! tok = Some rc ∨
     ∃ b, rdloop (conn s') = RdSend tok rc b).
Proof.
  intros Ht Hinv. pose proof (inv_holds s Hinv) as Hholds.
  pose proof (inv_own s Hinv) as Hown.
  destruct Ht; cbn in *; intros j t0 tok rc0 Hj Hh.
  all: try (apply thread_update in Hj as [[-> ->]|[Hne Hj]]).
  all: try (destruct (Hholds _ _ _ _ Hj Hh) as [Hlt [Htab|[b0 Hb0]]]).
  all: try congruence.
  all: try by eauto.
  - (* route, hit *)
    split; [done|]. destruct (decide (tok = id)) as [->|Hne].
    + right. rewrite H0 in Htab. simplify_eq. eauto.
    + left. by rewrite lookup_delete_ne.
  - rewrite length_insert. eauto.
  - apply close_all_Ok in H0 as (-> & _). eauto.
  - destruct H2 as [H2|H2]; rewrite H2 in Hh; [done|]. eauto.
  - cbn in Hh. simplify_eq. rewrite length_app. cbn. split; [lia|].
    left. rewrite H1. apply lookup_insert_eq.
  - rewrite length_app. split; [lia|]. left.
    rewrite lookup_insert_ne; [done|]. intros <-. congruence.
  - rewrite length_app. split; [lia|]. eauto.
  - rewrite H0 in Hb0. simplify_eq.
    by pose proof (Hown _ _ _ _ _ _ _ H Hj eq_refl Hh).
Qed.

Lemma trans_own (s s' : system) :
  trans s s' → inv s →
  ∀ i j ti tj tok tok' rc,
    threads s' !! i = Some ti → threads s' !! j = Some tj →
    holds ti = Some (tok, rc) → holds tj = Some (tok', rc) → i = j.
Proof.
  intros Ht Hinv. pose proof (inv_holds s Hinv) as Hholds.
  pose proof (inv_own s Hinv) as Hown.
  destruct Ht; cbn in *; intros j1 j2 t1 t2 tok tok' rc0 Hj1 Hj2 Hh1 Hh2.
  all: try by eauto.
  all: apply thread_update in Hj1 as [[-> ->]|[Hne1 Hj1]];
    apply thread_update in Hj2 as [[-> ->]|[Hne2 Hj2]]; try done.
  all: try by eauto.
  all: cbn in Hh1, Hh2; try congruence.
  - destruct H2 as [H2|H2]; rewrite H2 in Hh1; [done|]. eauto.
  - destruct H2 as [H2|H2]; rewrite H2 in Hh2; [done|]. eauto.
  - simplify_eq. destruct (Hholds _ _ _ _ Hj2 Hh2). lia.
  - simplify_eq. destruct (Hholds _ _ _ _ Hj1 Hh1). lia.
Qed.

Lemma trans_decoded (s s' : system) :
  trans s s' → inv s →
  ∀ i t a a' tok b, threads s' !! i = Some t →
    decoded t = Some (a, a', tok, b) →
    a' = a ∧ (tok, b) ∈ rd_done (rw (conn s')).
Proof.
  intros Ht Hinv. pose proof (inv_holds s Hinv) as Hholds.
  pose proof (inv_decoded s Hinv) as Hdec.
  pose proof (inv_send s Hinv) as Hsend.
  destruct Ht; cbn in *; intros j t0 a0 a' tok b0 Hj Hd.
  all: try (apply thread_update in Hj as [[-> ->]|[Hne Hj]]).
  all: try congruence.
  all: try by eauto.
  all: try by (rewrite ?H1; eauto).
  - destruct (Hdec _ _ _ _ _ _ Hj Hd) as [-> Hin]. split; [done|].
    rewrite H1. destruct r; [by right | done].
  - cbn in Hd. simplify_eq. split; [done|].
    destruct (Hsend _ _ _ H0) as (_ & Hnot & Hin).
    destruct (Hholds _ _ _ _ H eq_refl) as [_ [Htab|[b1 Hb1]]].
    + by apply Hnot in Htab.
    + rewrite H0 in Hb1. by simplify_eq.
Qed.

Lemma trans_token (s s' : system) :
  trans s s' → inv s →
  ∀ i t tok, threads s' !! i = Some t → token_of t = Some tok → in_range tok.
Proof.
  intros Ht Hinv. pose proof (inv_token s Hinv) as Htok.
  pose proof (inv_id s Hinv) as Hid.
  destruct Ht; cbn in *; intros j t0 tok Hj Ht0.
  all: try (apply thread_update in Hj as [[-> ->]|[Hne Hj]]).
  all: try by eauto.
  all: cbn in Ht0; try congruence.
  - destruct H4 as [H4|H4]; rewrite H4 in Ht0; [done|]. eauto.
  - assert (tok = id) as -> by congruence. eauto.
  - simplify_eq. rewrite H1. by eapply Htok.
Qed.

Lemma inv_trans (s s' : system) : trans s s' → inv s → inv s'.
Proof.
  intros Ht Hinv. constructor.
  - by eapply trans_open.
  - by eapply trans_shut.
  - by eapply trans_id.
  - by eapply trans_tab_lt.
  - by eapply trans_tab_open.
  - by eapply trans_tab_inj.
  - by eapply trans_route.
  - by eapply trans_send.
  - by eapply trans_closech.
  - by eapply trans_holds.
  - by eapply trans_own.
  - by eapply trans_decoded.
  - by eapply trans_token.
Qed.

Lemma inv_step (ch : choice) (s s' : system) :
  inv s → step ch s = Ok s' → inv s'.
Proof. intros Hinv Hs. eapply inv_trans; [by eapply step_trans | done]. Qed.

Lemma inv_run (sched : list choice) :
  ∀ s s', inv s → run sched s = Ok s' → inv s'.
Proof.
  induction sched as [|ch sched IH]; intros s s' Hinv Hrun; cbn in Hrun.
  - by simplify_eq.
  - destruct (step ch s) as [s1| |] eqn:Hs; [|done..]. cbn in Hrun.
    eapply IH; [|done]. by eapply inv_step.
Qed.

Lemma fresh_lookup (ts : list thread) (i : nat) (t : thread) :
  forallb fresh ts = true → ts !! i = Some t → fresh t = true.
Proof.
  intros Hall Hi. rewrite forallb_forall in Hall.
  apply Hall, list_elem_of_In, list_elem_of_lookup. eauto.
Qed.

Lemma inv_init (rw0 : stream) (ts : list thread) :
  forallb fresh ts = true → closes rw0 = 0 →
  inv {| conn := opened rw0; threads := ts |}.
Proof.
  intros Hall Hcl. constructor; cbn; try done.
  - intros id [= <-]. unfold in_range, MaxInt32. lia.
  - intros i t tok rc Hi Hh. apply (fresh_lookup _ _ _ Hall) in Hi.
    by destruct t as [a []| |].
  - intros i j ti tj tok tok' rc Hi _ Hh _.
    apply (fresh_lookup _ _ _ Hall) in Hi. by destruct ti as [a []| |].
  - intros i t a a' tok b Hi Hd. apply (fresh_lookup _ _ _ Hall) in Hi.
    by destruct t as [a1 []| |].
  - intros i t tok Hi Hd. apply (fresh_lookup _ _ _ Hall) in Hi.
    by destruct t as [a1 []| |].
Qed.

Lemma reachable_inv (s : system) : reachable s → inv s.
Proof.
  intros (rw0 & ts & c0 & sched & Hnew & Hall & Hcl & _ & Hrun).
  cbn in Hnew. simplify_eq. eapply inv_run; [|done]. by apply inv_init.
Qed.

(** ** What steps leave alone *)

Lemma close_list_mono (l : list (Z * chan)) (chs chs' : list bool) (k : chan) :
  foldr (λ kv acc, chs ← acc; close_chan kv.2 chs) (Ok chs) l = Ok chs' →
  chs !! k = Some true → chs' !! k = Some true.
Proof.
  revert chs'. induction l as [|kv l IH]; intros chs' H Hk; cbn in H.
  - by simplify_eq.
  - destruct (foldr _ _ l) as [chs1| |] eqn:Hl; try done. cbn in H.
    apply close_chan_Ok in H as [Hopen ->].
    destruct (decide (kv.2 = k)) as [<-|Hne].
    + apply list_lookup_insert_eq. by eapply lookup_lt_Some.
    + rewrite list_lookup_insert_ne by done. by apply IH.
Qed.

Lemma settled_refl (s : system) : settled s s.
Proof. by repeat split. Qed.

Lemma settled_trans (s1 s2 s3 : system) :
  settled s1 s2 → settled s2 s3 → settled s1 s3.
Proof.
  intros (A1 & B1 & C1 & D1) (A2 & B2 & C2 & D2). repeat split; eauto.
Qed.

Lemma trans_settled (s s' : system) : trans s s' → settled s s'.
Proof.
  destruct 1; unfold settled; cbn; repeat split; try done; try congruence.
  all: intros rc0 Hrc.
  - destruct (decide (rc = rc0)) as [->|Hne].
    + apply list_lookup_insert_eq. by eapply lookup_lt_Some.
    + by rewrite list_lookup_insert_ne.
  - by eapply close_list_mono.
  - rewrite lookup_app_l; [done|]. by eapply lookup_lt_Some.
Qed.

Lemma run_settled (sched : list choice) :
  ∀ s s', run sched s = Ok s' → settled s s'.
Proof.
  induction sched as [|ch sched IH]; intros s s' Hrun; cbn in Hrun.
  - simplify_eq. apply settled_refl.
  - destruct (step ch s) as [s1| |] eqn:Hs; [|done..]. cbn in Hrun.
    eapply settled_trans; [|by eapply IH].
    by eapply trans_settled, step_trans.
Qed.

Lemma step_frame (ch : choice) (s s' : system) (i : nat) :
  step ch s = Ok s' → ch ≠ Thread i → threads s' !! i = threads s !! i.
Proof.
  destruct s as [c ts]. destruct ch as [|j]; cbn; intros Hs Hne.
  - destruct (readRespLoop c); cbn in Hs; by simplify_eq.
  - destruct (ts !! j) as [t|]; [|done].
    destruct (thread_step t c) as [[t' c']| |]; cbn in Hs; simplify_eq.
    cbn. apply list_lookup_insert_ne. congruence.
Qed.

Lemma run_frame (sched : list choice) (i : nat) :
  ∀ s s', run sched s = Ok s' → Thread i ∉ sched →
    threads s' !! i = threads s !! i.
Proof.
  induction sched as [|ch sched IH]; intros s s' Hrun Hni; cbn in Hrun.
  - by simplify_eq.
  - destruct (step ch s) as [s1| |] eqn:Hs; [|done..]. cbn in Hrun.
    apply not_elem_of_cons in Hni as [Hne Hni].
    rewrite (IH _ _ Hrun Hni). by eapply step_frame.
Qed.

Lemma run_app (sched1 sched2 : list choice) (s s1 s2 : system) :
  run sched1 s = Ok s1 → run sched2 s1 = Ok s2 →
  run (sched1 ++ sched2) s = Ok s2.
Proof.
  revert s. induction sched1 as [|ch sched1 IH]; intros s H1 H2; cbn in *.
  - by simplify_eq.
  - destruct (step ch s) as [s'| |]; [|done..]. cbn in *. eauto.
Qed.

Lemma reachable_run (sched : list choice) (s s' : system) :
  reachable s → run sched s = Ok s' → reachable s'.
Proof.
  intros (rw0 & ts & c0 & sched0 & ? & ? & ? & ? & Hrun) Hrun'.
  exists rw0, ts, c0, (sched0 ++ sched). repeat split; try done.
  by eapply run_app.
Qed.

Lemma reachable_step (ch : choice) (s s' : system) :
  reachable s → step ch s = Ok s' → reachable s'.
Proof.
  intros Hr Hs. apply (reachable_run [ch] s s' Hr). cbn. by rewrite Hs.
Qed.

Lemma reachable_by (rw0 : stream) (ts : list thread) (sched : list choice)
    (s : system) :
  forallb fresh ts = true → closes rw0 = 0 → rd_done rw0 = [] →
  run sched {| conn := opened rw0; threads := ts |} = Ok s → reachable s.
Proof. intros. by exists rw0, ts, (opened rw0), sched. Qed.

(** A call that found [c.nextID] or its channel closed returns the
    recorded reason, whatever the other goroutines do in between. *)
Lemma thread_step_at (s : system) (i : nat) (t t' : thread) (c' : connection) :
  threads s !! i = Some t → thread_step t (conn s) = Ok (t', c') →
  ∃ s', step (Thread i) s = Ok s' ∧ threads s' !! i = Some t' ∧ conn s' = c'.
Proof.
  intros Hi Ht. destruct s as [c ts]. cbn in *. rewrite Hi, Ht. cbn.
  eexists. split; [done|]. cbn. split; [|done].
  apply list_lookup_insert_eq. by eapply lookup_lt_Some.
Qed.

Lemma returns_stopErr (s : system) (i : nat) (a : api) (req : request)
    (pc : call) (e : err_val) :
  pc = SawClosed req ∨ pc = SawDrained req →
  threads s !! i = Some (InCall a pc) → stopErr (conn s) = Some e →
  ∀ sched s1, run sched s = Ok s1 → Thread i ∉ sched →
    ∃ s2, step (Thread i) s1 = Ok s2 ∧
      threads s2 !! i = Some (InCall a (Return req (RetErr (Some e)))).
Proof.
  intros Hpc Hi He sched s1 Hrun Hni.
  pose proof (run_settled _ _ _ Hrun) as (Hst & _).
  rewrite <- (run_frame _ _ _ _ Hrun Hni) in Hi.
  destruct (thread_step_at s1 i _ (InCall a (Return req (RetErr (Some e))))
              (conn s1) Hi) as (s2 & ? & ? & _); [|by eauto].
  cbn. rewrite <- (Hst _ He).
  destruct Hpc as [-> | ->].
  - by rewrite (proj1 (method_stopErr a req (conn s1))).
  - by rewrite (proj2 (method_stopErr a req (conn s1))).
Qed.

(** C7.  Once [c.nextID] is closed a terminal reason is recorded, and each
    of the seven methods called from then on returns [nil] and that reason:
    whatever the other goroutines do meanwhile, both steps of the call can be
    taken (it never waits) and the value returned is the recorded reason,
    which is not [nil]. *)
Theorem C7_closed_connection_fails (s : system) :
  reachable s → nextID_closed (conn s) = true →
  ∃ e : err_val,
    stopErr (conn s) = Some e ∧
    ∀ (i : nat) (a : api) (req : request),
      threads s !! i = Some (InCall a (Start req)) →
      ∀ sched1 s1, run sched1 s = Ok s1 → Thread i ∉ sched1 →
        ∃ s2, step (Thread i) s1 = Ok s2 ∧
          ∀ sched2 s3, run sched2 s2 = Ok s3 → Thread i ∉ sched2 →
            ∃ s4, step (Thread i) s3 = Ok s4 ∧
              threads s4 !! i
              = Some (InCall a (Return (set_CorrelationID 0 req)
                                  (RetErr (Some e)))).
Proof.
  intros Hr Hcl. pose proof (reachable_inv s Hr) as Hinv.
  destruct (stopErr (conn s)) as [e|] eqn:He.
  2: { destruct (inv_open s Hinv He) as (? & _). congruence. }
  exists e. split; [done|].
  intros i a req Hi sched1 s1 Hrun1 Hni1.
  pose proof (run_settled _ _ _ Hrun1) as (Hst1 & Hcl1 & _).
  rewrite <- (run_frame _ _ _ _ Hrun1 Hni1) in Hi.
  destruct (thread_step_at s1 i _
              (InCall a (SawClosed (set_CorrelationID 0 req))) (conn s1) Hi)
    as (s2 & Hs2 & Hi2 & Hc2).
  { cbn. rewrite method_start. unfold recv_nextID. by rewrite (Hcl1 Hcl). }
  exists s2. split; [done|].
  eapply returns_stopErr; [by left | done |].
  rewrite Hc2. by apply Hst1.
Qed.

Lemma C7_closed_connection_fails_witness :
  reachable closed_sys ∧ nextID_closed (conn closed_sys) = true ∧
  ∃ e : err_val,
    stopErr (conn closed_sys) = Some e ∧
    ∀ (i : nat) (a : api) (req : request),
      threads closed_sys !! i = Some (InCall a (Start req)) →
      ∀ sched1 s1, run sched1 closed_sys = Ok s1 → Thread i ∉ sched1 →
        ∃ s2, step (Thread i) s1 = Ok s2 ∧
          ∀ sched2 s3, run sched2 s2 = Ok s3 → Thread i ∉ sched2 →
            ∃ s4, step (Thread i) s3 = Ok s4 ∧
              threads s4 !! i
              = Some (InCall a (Return (set_CorrelationID 0 req)
                                  (RetErr (Some e)))).
Proof.
  assert (Hr : reachable closed_sys)
    by (apply (reachable_by quiet
                 [InClose; InCall ApiMetadata (Start req0);
                  InCall ApiProduce (Start req0)] [Thread 0]);
        vm_compute; reflexivity).
  split; [exact Hr|]. split; [vm_compute; reflexivity|].
  apply (C7_closed_connection_fails closed_sys Hr). vm_compute. reflexivity.
Defined.

(** ** Shutdown *)

Lemma reader_step_at (s : system) (c' : connection) :
  readRespLoop (conn s) = Ok c' →
  step Reader s = Ok {| conn := c'; threads := threads s |}.
Proof. intros H. cbn. by rewrite H. Qed.

Lemma closeConnection_inv (s : system) (e : err_val) :
  inv s →
  closeConnection (Some e) (conn s)
  = match stopErr (conn s) with
    | Some e0 => Ok (Some e0, conn s)
    | None => Ok (close_res (rw (conn s)), shut (Some e) (conn s))
    end.
Proof.
  intros Hinv. unfold closeConnection.
  destruct (stopErr (conn s)) as [e0|] eqn:He; [done|].
  destruct (inv_open s Hinv He) as (_ & Hstop & [id Hid] & _).
  cbn. by rewrite Hstop, Hid.
Qed.

(** C2.  A failed read takes the reader to [closeConnection] with that
    error; the call records it as the terminal reason unless one is recorded
    already, and the reader returns; its deferred function closes every
    channel still in the table without panicking, after which the reader
    never moves again.  Every caller that was waiting for a response at that
    point can then take its two remaining steps, whatever the others do, and
    returns the recorded reason, which is not [nil]. *)
Theorem C2_shutdown_unblocks_waiters (s : system) :
  reachable s →
  (∀ err c1, rdloop (conn s) = RdRead →
     ReadResp (conn s) = Ok (inr err, c1) →
     ∃ s1, step Reader s = Ok s1 ∧ rdloop (conn s1) = RdFail err) ∧
  (∀ err, rdloop (conn s) = RdFail err →
     ∃ s1, step Reader s = Ok s1 ∧ rdloop (conn s1) = RdDefer ∧
       stopErr (conn s1) = Some (default err (stopErr (conn s)))) ∧
  (rdloop (conn s) = RdDefer →
     ∃ s1 e, step Reader s = Ok s1 ∧ rdloop (conn s1) = RdExit ∧
       stopErr (conn s1) = Some e ∧
       (∀ tok rc, respc (conn s) !! tok = Some rc →
          chans (conn s1) !! rc = Some true) ∧
       ∀ i a req rc, threads s !! i = Some (InCall a (Wait req rc)) →
         ∀ sched1 s2, run sched1 s1 = Ok s2 → Thread i ∉ sched1 →
           ∃ s3, step (Thread i) s2 = Ok s3 ∧
             ∀ sched2 s4, run sched2 s3 = Ok s4 → Thread i ∉ sched2 →
               ∃ s5, step (Thread i) s4 = Ok s5 ∧
                 threads s5 !! i
                 = Some (InCall a (Return req (RetErr (Some e))))) ∧
  (rdloop (conn s) = RdExit →
     ∀ sched s1, run sched s = Ok s1 →
       rdloop (conn s1) = RdExit ∧ step Reader s1 = Blocked).
Proof.
  intros Hr. pose proof (reachable_inv s Hr) as Hinv.
  split; [|split; [|split]].
  - intros err c1 Hrd Hread. eexists. split.
    + apply reader_step_at. unfold readRespLoop. rewrite Hrd, Hread. done.
    + done.
  - intros err Hrd. pose proof (closeConnection_inv s err Hinv) as Hcl.
    destruct (stopErr (conn s)) as [e0|] eqn:He; eexists; (split;
      [apply reader_step_at; unfold readRespLoop; rewrite Hrd, Hcl; done|]);
      cbn; by rewrite ?He.
  - intros Hrd.
    destruct (close_all_total (respc (conn s)) (chans (conn s)))
      as [chs Hall].
    { apply (inv_tab_inj s Hinv). }
    { intros tok rc Htab. eapply (inv_tab_open s Hinv); [done|congruence]. }
    destruct (stopErr (conn s)) as [e|] eqn:He.
    2: { destruct (inv_open s Hinv He) as (_ & _ & _ & _ & ? & _). done. }
    pose proof (close_all_Ok _ _ _ Hall) as (_ & Hclosed & _).
    eexists _, e. split.
    { apply reader_step_at. unfold readRespLoop. rewrite Hrd, Hall. done. }
    cbn. split; [done|]. split; [done|]. split; [done|].
    intros i a req rc Hi sched1 s2 Hrun1 Hni1.
    destruct (inv_holds s Hinv i _ _ _ Hi eq_refl) as [_ [Htab|[b Hb]]];
      [|congruence].
    pose proof (run_settled _ _ _ Hrun1) as (Hst1 & _ & Hch1 & _).
    pose proof (Hch1 rc (Hclosed _ _ Htab)) as Hrc. cbn in Hst1.
    assert (Hi2 : threads s2 !! i = Some (InCall a (Wait req rc)))
      by by rewrite (run_frame _ _ _ _ Hrun1 Hni1).
    destruct (thread_step_at s2 i _ (InCall a (SawDrained req)) (conn s2) Hi2)
      as (s3 & Hs3 & Hi3 & Hc3).
    { unfold thread_step. rewrite method_wait. unfold recv_resp.
      by rewrite Hrc. }
    exists s3. split; [done|].
    eapply returns_stopErr; [by right | done |].
    rewrite Hc3. by apply Hst1.
  - intros Hrd sched s1 Hrun.
    pose proof (run_settled _ _ _ Hrun) as (_ & _ & _ & Hex).
    split; [by apply Hex|]. cbn. unfold readRespLoop. by rewrite (Hex Hrd).
Qed.

Lemma C2_shutdown_unblocks_waiters_witness :
  reachable draining_sys ∧
  threads draining_sys !! 0
  = Some (InCall ApiFetch (Wait (set_CorrelationID 1 req0) 0)) ∧
  ∃ s1 s3 s5,
    step Reader draining_sys = Ok s1 ∧ rdloop (conn s1) = RdExit ∧
    step (Thread 0) s1 = Ok s3 ∧ step (Thread 0) s3 = Ok s5 ∧
    threads s5 !! 0
    = Some (InCall ApiFetch
              (Return (set_CorrelationID 1 req0)
                 (RetErr (Some (ErrStream "EOF"))))).
Proof.
  assert (Hr : reachable draining_sys)
    by (apply (reachable_by broken [InCall ApiFetch (Start req0)]
                 [Thread 0; Thread 0; Thread 0; Reader; Reader]);
        vm_compute; reflexivity).
  split; [exact Hr|]. split; [reflexivity|].
  destruct (C2_shutdown_unblocks_waiters draining_sys Hr) as (_ & _ & H3 & _).
  destruct (H3 eq_refl) as (s1 & e & Hs1 & Hex & He & _ & Hw).
  destruct (Hw 0 ApiFetch (set_CorrelationID 1 req0) 0 eq_refl [] s1 eq_refl)
    as (s3 & Hs3 & Hw3); [apply not_elem_of_nil|].
  destruct (Hw3 [] s3 eq_refl) as (s5 & Hs5 & Hi5); [apply not_elem_of_nil|].
  exists s1, s3, s5. repeat split; try done.
  rewrite Hi5. do 4 f_equal.
  vm_compute in Hs1. injection Hs1 as <-. vm_compute in He. congruence.
Defined.

(** ** Routing *)

Lemma trans_retired (D : list chan) (s s' : system) :
  trans s s' → inv s → retired D s → retired D s'.
Proof.
  intros Ht Hinv HD.
  destruct Ht; cbn in *; intros rc0 Hin;
    destruct (HD rc0 Hin) as (Hlt & Htab & Hrd); cbn in *.
  all: try by (repeat split; eauto; congruence).
  - split; [done|]. split; [done|]. by destruct r as [[??]|?].
  - split; [done|]. split.
    + intros tok [_ ?]%lookup_delete_Some. by eapply Htab.
    + intros id' b' [= -> -> ->]. by eapply Htab.
  - rewrite length_insert. by repeat split.
  - apply close_all_Ok in H0 as (-> & _). by repeat split.
  - rewrite length_app. split; [lia|]. split; [|done].
    intros tok [[_ <-]|[_ ?]]%lookup_insert_Some; [lia|]. by eapply Htab.
Qed.

Lemma delivery_Some (ch : choice) (s s' : system) (rc : chan) (b : payload) :
  delivery ch s = Some (rc, b) → step ch s = Ok s' →
  (∃ id, rdloop (conn s) = RdSend id rc b) ∧
  rdloop (conn s') = RdCloseCh rc ∧
  respc (conn s') = respc (conn s) ∧ chans (conn s') = chans (conn s).
Proof.
  intros Hd Hs. destruct ch as [|i]; [done|].
  unfold delivery in Hd. unfold step in Hs.
  destruct s as [c ts]; cbn [conn threads] in *.
  destruct (ts !! i) as [[a pc| |]|]; try done.
  destruct pc as [| | | | |req rc0| |]; try done.
  unfold thread_step in Hs. rewrite method_wait in Hs.
  destruct (recv_resp rc0 c) as [[[b0 [|]] c1]| |] eqn:Hrecv; try done.
  cbn in Hs. simplify_eq. cbn.
  apply recv_resp_Ok in Hrecv as [(? & _)|(_ & _ & Hid & ->)]; [done|].
  by repeat split.
Qed.

Lemma deliveries_fresh (sched : list choice) :
  ∀ (s : system) (D : list chan), inv s → retired D s →
    NoDup (deliveries sched s).*1 ∧
    ∀ rc, rc ∈ (deliveries sched s).*1 → rc ∉ D.
Proof.
  induction sched as [|ch sched IH]; intros s D Hinv HD; cbn.
  { split; [constructor|]. intros rc Hin. by apply elem_of_nil in Hin. }
  destruct (step ch s) as [s'| |] eqn:Hs; cbn.
  2,3: split; [constructor|]; intros rc Hin; by apply elem_of_nil in Hin.
  pose proof (inv_step _ _ _ Hinv Hs) as Hinv'.
  pose proof (trans_retired D _ _ (step_trans _ _ _ Hs) Hinv HD) as HD'.
  destruct (delivery ch s) as [[rc b]|] eqn:Hd; cbn.
  - destruct (delivery_Some _ _ _ _ _ Hd Hs) as ([id Hrd] & Hrd' & Htab' & Hch').
    destruct (inv_send s Hinv _ _ _ Hrd) as (Hopen & Hnot & _).
    assert (Hnew : retired (rc :: D) s').
    { intros rc0 [->|Hin]%elem_of_cons; [|by apply HD'].
      rewrite Hch', Htab', Hrd'. split; [by eapply lookup_lt_Some|]. done. }
    destruct (IH s' (rc :: D) Hinv' Hnew) as [Hnd Hout].
    split.
    + constructor; [|done]. intros Hin. apply (Hout _ Hin). left.
    + intros rc0 [->|Hin]%elem_of_cons.
      * intros Hin. by destruct (HD _ Hin) as (_ & _ & Hno); eapply Hno.
      * intros HinD. apply (Hout _ Hin). by right.
  - by apply IH.
Qed.

(** C1.  In every reachable state: (1) routing a frame whose token is
    pending removes exactly that entry from the table and makes the reader
    send the payload on that entry's channel, which is open; (2) the send
    waits for a receiver, the only caller that can receive is the one that
    registered the frame's token, and it returns that payload for decoding;
    (3) the reader then closes the channel; (4) a caller that returns a
    decoded payload got it from a frame tagged with its own token, decoded by
    its own method; (5) along any continuation no channel carries two
    payloads.  The states range over every stream script, that is every
    order of arrival. *)
Theorem C1_exactly_once_routing (s : system) :
  reachable s →
  (∀ id b rc, rdloop (conn s) = RdRoute id b →
     respc (conn s) !! id = Some rc →
     ∃ s1, step Reader s = Ok s1 ∧
       respc (conn s1) = delete id (respc (conn s)) ∧
       rdloop (conn s1) = RdSend id rc b ∧
       chans (conn s1) !! rc = Some false ∧ threads s1 = threads s) ∧
  (∀ id rc b, rdloop (conn s) = RdSend id rc b →
     step Reader s = Blocked ∧
     ∀ i a req rc', threads s !! i = Some (InCall a (Wait req rc')) →
       (rc' ≠ rc → step (Thread i) s = Blocked) ∧
       (rc' = rc →
        CorrelationID req = id ∧
        ∃ s1, step (Thread i) s = Ok s1 ∧
          threads s1 !! i = Some (InCall a (Return req (RetDecode a b))) ∧
          rdloop (conn s1) = RdCloseCh rc ∧ respc (conn s1) = respc (conn s))) ∧
  (∀ rc, rdloop (conn s) = RdCloseCh rc →
     ∃ s1, step Reader s = Ok s1 ∧ chans (conn s1) !! rc = Some true ∧
       rdloop (conn s1) = RdRead ∧ respc (conn s1) = respc (conn s)) ∧
  (∀ i a req a' b,
     threads s !! i = Some (InCall a (Return req (RetDecode a' b))) →
     a' = a ∧ (CorrelationID req, b) ∈ rd_done (rw (conn s))) ∧
  (∀ sched, NoDup (deliveries sched s).*1).
Proof.
  intros Hr. pose proof (reachable_inv s Hr) as Hinv.
  split; [|split; [|split; [|split]]].
  - intros id b rc Hrd Htab. eexists. split.
    { apply reader_step_at. unfold readRespLoop. rewrite Hrd, Htab. done. }
    cbn. repeat split. eapply (inv_tab_open s Hinv); [done | congruence].
  - intros id rc b Hrd.
    destruct (inv_send s Hinv _ _ _ Hrd) as (Hopen & Hnot & _).
    split. { cbn. unfold readRespLoop. by rewrite Hrd, Hopen. }
    intros i a req rc' Hi.
    destruct (inv_holds s Hinv i _ _ _ Hi eq_refl) as [Hlt [Htab|[b' Hb']]].
    + (* rc' is still in the table, so it is not the reader's channel *)
      assert (Hne : rc' ≠ rc) by (intros ->; by eapply Hnot).
      split; [|done]. intros _.
      pose proof (inv_tab_open s Hinv _ _ Htab) as Hopen'.
      destruct s as [c ts]. cbn in *. rewrite Hi. cbn.
      rewrite method_wait. unfold recv_resp.
      rewrite Hopen', Hrd by congruence. by rewrite decide_False.
    + rewrite Hrd in Hb'. simplify_eq. split; [done|]. intros _.
      split; [done|].
      destruct (thread_step_at s i _ (InCall a (Return req (RetDecode a b')))
                  (set_rdloop (RdCloseCh rc') (conn s)) Hi)
        as (s1 & Hs1 & Hi1 & Hc1).
      { unfold thread_step. rewrite method_wait. unfold recv_resp.
        rewrite Hopen, Hrd. by rewrite decide_True. }
      exists s1. rewrite Hc1. by repeat split.
  - intros rc Hrd. destruct (inv_closech s Hinv _ Hrd) as (Hopen & _).
    eexists. split.
    { apply reader_step_at. unfold readRespLoop, close_chan.
      rewrite Hrd, Hopen. done. }
    cbn. split; [|done].
    apply list_lookup_insert_eq. by eapply lookup_lt_Some.
  - intros i a req a' b Hi. by eapply (inv_decoded s Hinv).
  - intros sched. apply (deliveries_fresh sched s [] Hinv).
    intros rc Hin. by apply elem_of_nil in Hin.
Qed.

Lemma C1_exactly_once_routing_witness :
  reachable routed_sys ∧
  threads routed_sys
  = [InCall ApiMetadata
       (Return (set_CorrelationID 1 req0) (RetDecode ApiMetadata [x01]));
     InCall ApiFetch
       (Return (set_CorrelationID 2 req0) (RetDecode ApiFetch [x02]))] ∧
  (1%Z, [x01]) ∈ rd_done (rw (conn routed_sys)) ∧
  (2%Z, [x02]) ∈ rd_done (rw (conn routed_sys)).
Proof.
  assert (Hr : reachable routed_sys)
    by (apply (reachable_by reversed two_callers reversed_sched);
        vm_compute; reflexivity).
  split; [exact Hr|]. split; [vm_compute; reflexivity|].
  destruct (C1_exactly_once_routing routed_sys Hr) as (_ & _ & _ & H4 & _).
  split.
  - apply (H4 0 ApiMetadata (set_CorrelationID 1 req0) ApiMetadata [x01]).
    vm_compute. reflexivity.
  - apply (H4 1 ApiFetch (set_CorrelationID 2 req0) ApiFetch [x02]).
    vm_compute. reflexivity.
Defined.

(** ** Closing the connection *)

Lemma method_no_panic (a : api) (pc : call) (c : connection) :
  method a pc c ≠ Panic.
Proof.
  destruct pc as [req|req|req|req|req rc|req rc|req|req r].
  - rewrite method_start. unfold recv_nextID.
    destruct (nextID_closed c); [by destruct a|].
    destruct (idloop c); [|done]. cbn. destruct a; by repeat case_match.
  - by rewrite (proj1 (method_stopErr a req c)).
  - rewrite method_register. by destruct (respWaiter _ c) as [[?|?] ?].
  - destruct a; try done; cbn; by repeat case_match.
  - rewrite method_write. by destruct (WriteTo _ _ _) as [[?|] ?].
  - rewrite method_wait. unfold recv_resp.
    destruct (chans c !! rc) as [[]|]; try done;
      destruct (rdloop c); try done; by case_decide.
  - by rewrite (proj2 (method_stopErr a req c)).
  - by destruct a.
Qed.

Lemma no_panic (ch : choice) (s : system) : inv s → step ch s ≠ Panic.
Proof.
  intros Hinv. destruct ch as [|i]; unfold step.
  - assert (readRespLoop (conn s) ≠ Panic) as Hne;
      [|by destruct (readRespLoop (conn s))].
    unfold readRespLoop.
    destruct (rdloop (conn s)) as [|e|id b|id rc b|rc| |] eqn:Hrd; try done.
    + unfold ReadResp. destruct (rd_next (rw (conn s))) as [|[[??]|?] ?];
        try done. by destruct (closes (rw (conn s))).
    + rewrite (closeConnection_inv s e Hinv). by destruct (stopErr (conn s)).
    + by destruct (respc (conn s) !! id).
    + destruct (inv_send s Hinv _ _ _ Hrd) as (-> & _). done.
    + destruct (inv_closech s Hinv _ Hrd) as (Hopen & _).
      unfold close_chan. by rewrite Hopen.
    + destruct (close_all_total (respc (conn s)) (chans (conn s)))
        as [chs ->]; [apply (inv_tab_inj s Hinv) | | done].
      intros tok rc Htab. eapply (inv_tab_open s Hinv); [done|congruence].
  - destruct (threads s !! i) as [t|]; [|done].
    assert (thread_step t (conn s) ≠ Panic) as Hne;
      [|by destruct (thread_step t (conn s)) as [[??]| |]].
    destruct t as [a pc| |]; cbn; try done.
    + pose proof (method_no_panic a pc (conn s)).
      by destruct (method a pc (conn s)) as [[??]| |].
    + unfold Close. rewrite (closeConnection_inv s ErrClosed Hinv).
      by destruct (stopErr (conn s)).
Qed.

Lemma close_many_shut (es : list err_val) (c : connection) (e0 : err_val) :
  stopErr c = Some e0 →
  close_many es c = Ok (map (λ _, Some e0) es, c).
Proof.
  intros He. induction es as [|e es IH]; cbn; [done|].
  unfold closeConnection. rewrite He. cbn. by rewrite IH.
Qed.

Lemma trans_closes (s s' : system) :
  trans s s' → inv s → closes (rw (conn s)) ≤ closes (rw (conn s')).
Proof.
  intros Ht Hinv. destruct Ht; cbn; lia.
Qed.

Lemma Close_thread (s : system) (i : nat) :
  inv s → threads s !! i = Some InClose →
  ∃ s', step (Thread i) s = Ok s' ∧
    threads s' !! i
    = Some (CloseReturned (match stopErr (conn s) with
                           | Some e0 => Some e0
                           | None => close_res (rw (conn s))
                           end)) ∧
    conn s' = match stopErr (conn s) with
              | Some _ => conn s
              | None => shut (Some ErrClosed) (conn s)
              end.
Proof.
  intros Hinv Hi. eapply thread_step_at; [done|].
  cbn. unfold Close. rewrite (closeConnection_inv s ErrClosed Hinv).
  by destruct (stopErr (conn s)).
Qed.

(** C10.  The call of [closeConnection] that records the reason returns
    what closing the stream returned, which is [nil] when the stream closes
    cleanly, and not the recorded reason; every other call returns the
    recorded reason.  The same holds for [Close] and for a goroutine that
    runs it. *)
Theorem C10_first_close_returns_stream_result (s : system) :
  reachable s →
  (stopErr (conn s) = None →
     (∀ err, closeConnection (Some err) (conn s)
             = Ok (close_res (rw (conn s)), shut (Some err) (conn s)) ∧
             stopErr (shut (Some err) (conn s)) = Some err) ∧
     Close (conn s)
     = Ok (close_res (rw (conn s)), shut (Some ErrClosed) (conn s)) ∧
     (close_res (rw (conn s)) = None →
        ∃ c', Close (conn s) = Ok (None, c') ∧ stopErr c' = Some ErrClosed) ∧
     ∀ i, threads s !! i = Some InClose →
       ∃ s', step (Thread i) s = Ok s' ∧
         threads s' !! i = Some (CloseReturned (close_res (rw (conn s)))) ∧
         stopErr (conn s') = Some ErrClosed) ∧
  (∀ e0, stopErr (conn s) = Some e0 →
     (∀ err, closeConnection (Some err) (conn s) = Ok (Some e0, conn s)) ∧
     Close (conn s) = Ok (Some e0, conn s) ∧
     ∀ i, threads s !! i = Some InClose →
       ∃ s', step (Thread i) s = Ok s' ∧
         threads s' !! i = Some (CloseReturned (Some e0)) ∧
         conn s' = conn s).
Proof.
  intros Hr. pose proof (reachable_inv s Hr) as Hinv. split.
  - intros He.
    assert (Hcl : ∀ err, closeConnection (Some err) (conn s)
             = Ok (close_res (rw (conn s)), shut (Some err) (conn s)))
      by (intros err; by rewrite (closeConnection_inv s err Hinv), He).
    split; [by split|]. split; [apply Hcl|]. split.
    + intros Hnil. eexists. unfold Close. by rewrite Hcl, Hnil.
    + intros i Hi. destruct (Close_thread s i Hinv Hi) as (s' & Hs & Ht & Hc).
      rewrite He in Ht, Hc. exists s'. by rewrite Hc.
  - intros e0 He.
    assert (Hcl : ∀ err, closeConnection (Some err) (conn s)
             = Ok (Some e0, conn s))
      by (intros err; by rewrite (closeConnection_inv s err Hinv), He).
    split; [done|]. split; [apply Hcl|].
    intros i Hi. destruct (Close_thread s i Hinv Hi) as (s' & Hs & Ht & Hc).
    rewrite He in Ht, Hc. by exists s'.
Qed.

Lemma C10_first_close_returns_stream_result_witness :
  reachable idle_sys ∧ stopErr (conn idle_sys) = None ∧
  Close (conn idle_sys) = Ok (None, shut (Some ErrClosed) (conn idle_sys)) ∧
  stopErr (shut (Some ErrClosed) (conn idle_sys)) = Some ErrClosed.
Proof.
  assert (Hr : reachable idle_sys)
    by (apply (reachable_by quiet [InClose; InClose] []);
        vm_compute; reflexivity).
  split; [exact Hr|]. split; [reflexivity|].
  destruct (C10_first_close_returns_stream_result idle_sys Hr) as [H1 _].
  destruct (H1 eq_refl) as (Hcl & HClose & _).
  split; [exact HClose|]. exact (proj2 (Hcl ErrClosed)).
Defined.

(** On a new connection whose stream closes cleanly, the first [Close]
    returns [nil] and the second returns [ErrClosed]: two calls of [Close]
    do not return the same value. *)
Lemma C3_close_twice_differs :
  newTCPConnection (inl quiet) = inl (opened quiet) ∧
  Close (opened quiet) = Ok (None, shut (Some ErrClosed) (opened quiet)) ∧
  Close (shut (Some ErrClosed) (opened quiet))
  = Ok (Some ErrClosed, shut (Some ErrClosed) (opened quiet)) ∧
  (None : error) ≠ Some ErrClosed.
Proof. repeat split; (reflexivity || discriminate). Qed.

(** C3, amended.  In a reachable state, take any sequence of calls of
    [closeConnection] with reasons [e :: es].  The first call returns the
    recorded reason if there is one and otherwise the result of closing the
    stream, and after it the recorded reason is the earlier one or else [e];
    every later call returns that recorded reason and leaves the connection
    exactly as the first call left it; the stream has been closed once.
    Whatever the goroutines do afterwards, a recorded reason never changes,
    the stream is closed at most once, no step panics, and a goroutine that
    calls [Close] is never kept waiting. *)
Theorem C3_idempotent_close (s : system) :
  reachable s →
  (∀ (e : err_val) (es : list err_val),
     ∃ (r1 : error) (c1 : connection),
       closeConnection (Some e) (conn s) = Ok (r1, c1) ∧
       r1 = match stopErr (conn s) with
            | Some e0 => Some e0
            | None => close_res (rw (conn s))
            end ∧
       stopErr c1 = Some (default e (stopErr (conn s))) ∧
       closes (rw c1) = 1 ∧
       close_many (e :: es) (conn s)
       = Ok (r1 :: map (λ _, Some (default e (stopErr (conn s)))) es, c1)) ∧
  (∀ sched s', run sched s = Ok s' →
     (∀ e0, stopErr (conn s) = Some e0 → stopErr (conn s') = Some e0) ∧
     closes (rw (conn s')) ≤ 1 ∧
     (∀ ch, step ch s' ≠ Panic) ∧
     ∀ i, threads s' !! i = Some InClose →
       ∃ s'', step (Thread i) s' = Ok s'').
Proof.
  intros Hr. pose proof (reachable_inv s Hr) as Hinv. split.
  - intros e es. pose proof (closeConnection_inv s e Hinv) as Hcl.
    destruct (stopErr (conn s)) as [e0|] eqn:He.
    + exists (Some e0), (conn s). split; [done|]. split; [done|].
      split; [done|].
      split; [by destruct (inv_shut s Hinv) as (_ & _ & _ & ?); [rewrite He|]|].
      cbn [close_many]. rewrite Hcl. cbn.
      by rewrite (close_many_shut es (conn s) e0 He).
    + exists (close_res (rw (conn s))), (shut (Some e) (conn s)).
      split; [done|]. split; [done|]. split; [done|].
      destruct (inv_open s Hinv He) as (_ & _ & _ & Hc & _).
      split; [by cbn; rewrite Hc|].
      cbn [close_many]. rewrite Hcl. cbn -[shut].
      by rewrite (close_many_shut es (shut (Some e) (conn s)) e).
  - intros sched s' Hrun.
    pose proof (inv_run _ _ _ Hinv Hrun) as Hinv'.
    pose proof (run_settled _ _ _ Hrun) as (Hst & _).
    split; [done|]. split; [|split].
    + destruct (stopErr (conn s')) as [e0|] eqn:He.
      * destruct (inv_shut s' Hinv') as (_ & _ & _ & ->); [by rewrite He|lia].
      * destruct (inv_open s' Hinv' He) as (_ & _ & _ & -> & _). lia.
    + intros ch. by apply no_panic.
    + intros i Hi. destruct (Close_thread s' i Hinv' Hi) as (s'' & ? & _).
      by exists s''.
Qed.

Lemma C3_idempotent_close_witness :
  reachable idle_sys ∧
  close_many [ErrClosed; ErrClosed; ErrStream "EOF"] (conn idle_sys)
  = Ok ([None; Some ErrClosed; Some ErrClosed],
        shut (Some ErrClosed) (conn idle_sys)).
Proof.
  assert (Hr : reachable idle_sys)
    by (apply (reachable_by quiet [InClose; InClose] []);
        vm_compute; reflexivity).
  split; [exact Hr|].
  destruct (C3_idempotent_close idle_sys Hr) as [H1 _].
  destruct (H1 ErrClosed [ErrClosed; ErrStream "EOF"])
    as (r1 & c1 & Hcl & -> & _ & _ & Hmany).
  vm_compute in Hcl. injection Hcl as <-. exact Hmany.
Defined.

(** ** Produce without acknowledgement, and failed writes *)

Lemma WriteTo_fields (a : api) (req : request) (c : connection) :
  (WriteTo a req c).1 = default None (head (wr_next (rw c))) ∧
  respc (WriteTo a req c).2 = respc c ∧
  chans (WriteTo a req c).2 = chans c ∧
  stopErr (WriteTo a req c).2 = stopErr c ∧
  rdloop (WriteTo a req c).2 = rdloop c ∧
  wr_done (rw (WriteTo a req c).2) = (a, req) :: wr_done (rw c).
Proof. unfold WriteTo. cbn. by destruct (wr_next (rw c)). Qed.

(** C8.  Take a [Produce] call whose request asks for no acknowledgement.
    While [c.nextID] is open the call takes its token and goes straight to
    the write; whatever the others do meanwhile, the write is then taken
    without waiting and the call returns [nil] together with the result of
    the write; the request written carries the token.  Once [c.nextID] is
    closed the call goes to return the recorded reason instead.  In both
    cases every step of the call can be taken at once and leaves the table
    and the channels unchanged: the call never reaches the registration nor
    the receive. *)
Theorem C8_fire_and_forget (s : system) (i : nat) (req : request) :
  reachable s →
  threads s !! i = Some (InCall ApiProduce (Start req)) →
  RequiredAcks req = RequiredAcksNone →
  (nextID_closed (conn s) = false →
   ∃ (id : Z) (s1 : system),
     idloop (conn s) = Some id ∧
     step (Thread i) s = Ok s1 ∧
     threads s1 !! i
     = Some (InCall ApiProduce (WriteOnly (set_CorrelationID id req))) ∧
     respc (conn s1) = respc (conn s) ∧ chans (conn s1) = chans (conn s) ∧
     ∀ sched s2, run sched s1 = Ok s2 → Thread i ∉ sched →
       ∃ s3, step (Thread i) s2 = Ok s3 ∧
         threads s3 !! i
         = Some (InCall ApiProduce
                   (Return (set_CorrelationID id req)
                      (RetErr (default None (head (wr_next (rw (conn s2)))))))) ∧
         respc (conn s3) = respc (conn s2) ∧
         chans (conn s3) = chans (conn s2) ∧
         wr_done (rw (conn s3))
         = (ApiProduce, set_CorrelationID id req) :: wr_done (rw (conn s2))) ∧
  (nextID_closed (conn s) = true →
   ∃ s1 : system,
     step (Thread i) s = Ok s1 ∧ conn s1 = conn s ∧
     threads s1 !! i
     = Some (InCall ApiProduce (SawClosed (set_CorrelationID 0 req))) ∧
     ∀ sched s2, run sched s1 = Ok s2 → Thread i ∉ sched →
       ∃ s3, step (Thread i) s2 = Ok s3 ∧ conn s3 = conn s2 ∧
         threads s3 !! i
         = Some (InCall ApiProduce
                   (Return (set_CorrelationID 0 req)
                      (RetErr (stopErr (conn s2)))))).
Proof.
  intros Hr Hi Hacks. pose proof (reachable_inv s Hr) as Hinv. split.
  - intros Hopen.
    assert (∃ id, idloop (conn s) = Some id) as [id Hid].
    { destruct (stopErr (conn s)) as [e|] eqn:He.
      - destruct (inv_shut s Hinv) as (? & _); [by rewrite He | congruence].
      - destruct (inv_open s Hinv He) as (_ & _ & [id ?] & _). by exists id. }
    destruct (thread_step_at s i _
                (InCall ApiProduce (WriteOnly (set_CorrelationID id req)))
                (set_idloop (nextIDLoop id case_send) (conn s)) Hi)
      as (s1 & Hs1 & Hi1 & Hc1).
    { unfold thread_step. rewrite method_start. unfold recv_nextID.
      rewrite Hopen, Hid. cbn. by rewrite Hacks. }
    exists id, s1. rewrite Hc1. repeat (split; [done|]).
    intros sched s2 Hrun Hni.
    rewrite <- (run_frame _ _ _ _ Hrun Hni) in Hi1.
    pose proof (WriteTo_fields ApiProduce (set_CorrelationID id req) (conn s2))
      as (Herr & Htab & Hch & _ & _ & Hwr).
    destruct (thread_step_at s2 i _
                (InCall ApiProduce
                   (Return (set_CorrelationID id req)
                      (RetErr (default None (head (wr_next (rw (conn s2))))))))
                (WriteTo ApiProduce (set_CorrelationID id req) (conn s2)).2 Hi1)
      as (s3 & Hs3 & Hi3 & Hc3).
    { unfold thread_step, method, Produce. rewrite <- Herr.
      by destruct (WriteTo _ _ _). }
    exists s3. by rewrite Hc3.
  - intros Hcl.
    destruct (thread_step_at s i _
                (InCall ApiProduce (SawClosed (set_CorrelationID 0 req)))
                (conn s) Hi) as (s1 & Hs1 & Hi1 & Hc1).
    { unfold thread_step. rewrite method_start. unfold recv_nextID.
      by rewrite Hcl. }
    exists s1. repeat (split; [done|]).
    intros sched s2 Hrun Hni.
    rewrite <- (run_frame _ _ _ _ Hrun Hni) in Hi1.
    destruct (thread_step_at s2 i _
                (InCall ApiProduce
                   (Return (set_CorrelationID 0 req) (RetErr (stopErr (conn s2)))))
                (conn s2) Hi1) as (s3 & Hs3 & Hi3 & Hc3); [done|].
    by exists s3.
Qed.

Lemma C8_fire_and_forget_witness :
  reachable noack_sys ∧
  ∃ s1 s3,
    step (Thread 0) noack_sys = Ok s1 ∧ step (Thread 0) s1 = Ok s3 ∧
    threads s3 !! 0
    = Some (InCall ApiProduce
              (Return (set_CorrelationID 1 req_noack) (RetErr None))) ∧
    respc (conn s3) = ∅.
Proof.
  assert (Hr : reachable noack_sys)
    by (apply (reachable_by quiet [InCall ApiProduce (Start req_noack)] []);
        vm_compute; reflexivity).
  split; [exact Hr|].
  destruct (C8_fire_and_forget noack_sys 0 req_noack Hr eq_refl eq_refl)
    as [Hopen _].
  destruct (Hopen eq_refl)
    as (id & s1 & Hid & Hs1 & Hi1 & Htab1 & _ & Hnext).
  injection Hid as <-.
  destruct (Hnext [] s1 eq_refl) as (s3 & Hs3 & Hi3 & Htab3 & _);
    [apply not_elem_of_nil|].
  exists s1, s3. split; [done|]. split; [done|].
  vm_compute in Hs1. injection Hs1 as <-. split; [exact Hi3|].
  by rewrite Htab3.
Defined.

Lemma trans_entry_kept (s s' : system) (tok : Z) (rc : chan) :
  trans s s' → respc (conn s) !! tok = Some rc →
  respc (conn s') !! tok = Some rc ∨
  ∃ b, rdloop (conn s) = RdRoute tok b ∧ rdloop (conn s') = RdSend tok rc b.
Proof.
  intros Ht Htab. destruct Ht; cbn in *; eauto.
  - destruct (decide (tok = id)) as [->|Hne].
    + right. exists b. split; [done|]. congruence.
    + left. by rewrite lookup_delete_ne.
  - left. rewrite lookup_insert_ne; [done|]. congruence.
Qed.

(** C9.  A call that has registered its token and whose write fails
    returns the write error.  Its step leaves the table and the channels as
    they are: the entry of its token is still there (unless the response had
    already been routed), although no goroutine holds the channel any more;
    and from then on the entry stays until the reader routes a frame that
    carries the token. *)
Theorem C9_write_failure_keeps_entry (s : system) (i : nat) (a : api)
    (req : request) (rc : chan) (err : err_val) (rest : list error) :
  reachable s →
  threads s !! i = Some (InCall a (Write req rc)) →
  wr_next (rw (conn s)) = Some err :: rest →
  (respc (conn s) !! CorrelationID req = Some rc ∨
   ∃ b, rdloop (conn s) = RdSend (CorrelationID req) rc b) ∧
  ∃ s1, step (Thread i) s = Ok s1 ∧
    threads s1 !! i = Some (InCall a (Return req (RetErr (Some err)))) ∧
    respc (conn s1) = respc (conn s) ∧ chans (conn s1) = chans (conn s) ∧
    (∀ j t tok, threads s1 !! j = Some t → holds t ≠ Some (tok, rc)) ∧
    ∀ ch s2 s3, step ch s2 = Ok s3 →
      respc (conn s2) !! CorrelationID req = Some rc →
      respc (conn s3) !! CorrelationID req = Some rc ∨
      ∃ b, rdloop (conn s2) = RdRoute (CorrelationID req) b ∧
           rdloop (conn s3) = RdSend (CorrelationID req) rc b.
Proof.
  intros Hr Hi Hwr. pose proof (reachable_inv s Hr) as Hinv.
  split; [by destruct (inv_holds s Hinv i _ _ _ Hi eq_refl)|].
  pose proof (WriteTo_fields a req (conn s)) as (Herr & Htab & Hch & _).
  rewrite Hwr in Herr.
  destruct (thread_step_at s i _ (InCall a (Return req (RetErr (Some err))))
              (WriteTo a req (conn s)).2 Hi) as (s1 & Hs1 & Hi1 & Hc1).
  { unfold thread_step. rewrite method_write.
    destruct (WriteTo a req (conn s)) as [e c1]. cbn in Herr. by subst e. }
  exists s1. rewrite Hc1. repeat (split; [done|]). split.
  - intros j t tok Hj Hh.
    destruct (decide (j = i)) as [->|Hne].
    + rewrite Hi1 in Hj. by simplify_eq.
    + rewrite (step_frame _ _ _ j Hs1) in Hj by congruence.
      apply Hne. by eapply (inv_own s Hinv j i).
  - intros ch s2 s3 Hs Htab2. eapply trans_entry_kept; [|done].
    by eapply step_trans.
Qed.

Lemma C9_write_failure_keeps_entry_witness :
  reachable writing_sys ∧
  threads writing_sys !! 0
  = Some (InCall ApiMetadata (Write (set_CorrelationID 1 req0) 0)) ∧
  ∃ s1, step (Thread 0) writing_sys = Ok s1 ∧
    threads s1 !! 0
    = Some (InCall ApiMetadata
              (Return (set_CorrelationID 1 req0)
                 (RetErr (Some (ErrStream "broken pipe"))))) ∧
    respc (conn s1) !! 1%Z = Some 0.
Proof.
  assert (Hr : reachable writing_sys)
    by (apply (reachable_by unwritable [InCall ApiMetadata (Start req0)]
                 [Thread 0; Thread 0]);
        vm_compute; reflexivity).
  split; [exact Hr|]. split; [vm_compute; reflexivity|].
  assert (Hi : threads writing_sys !! 0
               = Some (InCall ApiMetadata (Write (set_CorrelationID 1 req0) 0)))
    by (vm_compute; reflexivity).
  assert (Hwr : wr_next (rw (conn writing_sys))
                = [Some (ErrStream "broken pipe")])
    by (vm_compute; reflexivity).
  destruct (C9_write_failure_keeps_entry writing_sys 0 ApiMetadata
              (set_CorrelationID 1 req0) 0 (ErrStream "broken pipe") []
              Hr Hi Hwr) as (_ & s1 & Hs1 & Hi1 & Htab & _).
  exists s1. split; [done|]. split; [done|].
  rewrite Htab. vm_compute. reflexivity.
Defined.

Lemma C6_orphan_discarded_witness :
  rdloop (conn orphan_sys) = RdRoute 7 [x07] ∧
  respc (conn orphan_sys) !! 7%Z = None ∧
  ∃ s' s2 : system,
    step Reader orphan_sys = Ok s' ∧ logged (conn s') = [7%Z] ∧
    run [Reader; Reader] s' = Ok s2 ∧ rdloop (conn s2) = RdSend 1 0 [x01].
Proof.
  assert (Hrd : rdloop (conn orphan_sys) = RdRoute 7 [x07])
    by (vm_compute; reflexivity).
  assert (Htab : respc (conn orphan_sys) !! 7%Z = None)
    by (vm_compute; reflexivity).
  split; [exact Hrd|]. split; [exact Htab|].
  destruct (C6_orphan_discarded orphan_sys 7 [x07] Hrd Htab)
    as (s' & Hs & _ & Hlog & _ & _ & _ & _ & _ & Hnext).
  destruct (Hnext 1%Z 0 [x01] []) as (s2 & Hrun & Hrd2 & _);
    [vm_compute; reflexivity..|].
  exists s', s2. split; [done|]. split; [|done].
  rewrite Hlog. vm_compute. reflexivity.
Defined.

(** ** The tokens in use *)

(** C4.  On a new connection the counter starts at 1; while it lies in
    1..2^31-2 it moves to its successor, except that 2^31-2 is followed by 1;
    the k-th token handed out (from 0) is 1 + k mod (2^31-2), so that every
    token lies between 1 and 2^31-2: never 0, never [MaxInt32].  In every
    reachable state of the system the counter and the token of every call in
    progress lie in that range. *)
Theorem C4_token_sequence (rw0 : stream) :
  idloop (opened rw0) = Some 1%Z ∧
  newTCPConnection (inl rw0) = inl (opened rw0) ∧
  (∀ id : Z, (1 ≤ id ≤ MaxInt32 - 1)%Z →
     nextIDLoop id case_send
     = Some (if (id =? MaxInt32 - 1)%Z then 1%Z else (id + 1)%Z)) ∧
  (∀ n k : nat, k < n →
     take_ids n (opened rw0) !! k
     = Some (1 + Z.of_nat k mod (2 ^ 31 - 2))%Z) ∧
  (∀ (n : nat) (id : Z), id ∈ take_ids n (opened rw0) →
     (1 ≤ id ≤ 2 ^ 31 - 2)%Z ∧ id ≠ 0%Z ∧ id ≠ MaxInt32) ∧
  (∀ n : nat, length (take_ids n (opened rw0)) = n) ∧
  (∀ s : system, reachable s →
     (∀ id : Z, idloop (conn s) = Some id → (1 ≤ id ≤ 2 ^ 31 - 2)%Z) ∧
     ∀ (i : nat) (t : thread) (tok : Z),
       threads s !! i = Some t → token_of t = Some tok →
       (1 ≤ tok ≤ 2 ^ 31 - 2)%Z ∧ tok ≠ 0%Z ∧ tok ≠ MaxInt32).
Proof.
  destruct (token_sequence rw0) as (H1 & H2 & H3 & H4 & H5 & H6).
  repeat (split; [assumption|]).
  intros s Hr. pose proof (reachable_inv s Hr) as Hinv. split.
  - intros id Hid. pose proof (inv_id s Hinv id Hid) as Hin.
    unfold in_range, MaxInt32 in Hin. lia.
  - intros i t tok Hi Ht. pose proof (inv_token s Hinv i t tok Hi Ht) as Hin.
    unfold in_range, MaxInt32 in *. lia.
Qed.

(** * Further properties of the code *)

(** Induction along a schedule, and over the reachable states. *)
Lemma run_invariant (P : system → Prop) :
  (∀ ch s s', reachable s → P s → step ch s = Ok s' → P s') →
  ∀ sched s0 s, reachable s0 → P s0 → run sched s0 = Ok s → P s.
Proof.
  intros Hstep sched.
  induction sched as [|ch sched IH]; intros s0 s Hr0 HP0 Hrun; cbn in Hrun.
  - by simplify_eq.
  - destruct (step ch s0) as [s1| |] eqn:Hs; [|done..]. cbn in Hrun.
    eapply IH; [by eapply reachable_step | by eapply Hstep | done].
Qed.

Lemma reachable_ind (P : system → Prop) :
  (∀ rw0 ts, forallb fresh ts = true → closes rw0 = 0 → rd_done rw0 = [] →
     P {| conn := opened rw0; threads := ts |}) →
  (∀ ch s s', reachable s → P s → step ch s = Ok s' → P s') →
  ∀ s, reachable s → P s.
Proof.
  intros Hinit Hstep s (rw0 & ts & c0 & sched & Hnew & Hall & Hcl & Hrd & Hrun).
  cbn in Hnew. simplify_eq.
  change (run sched {| conn := opened rw0; threads := ts |} = Ok s) in Hrun.
  eapply (run_invariant P Hstep); [|by apply Hinit|done].
  apply (reachable_by rw0 ts []); [done..|reflexivity].
Qed.

(** ** The life cycle of the connection *)

(** X1.  In every reachable state the connection is either open or closed
    as a whole: no reason recorded, [c.nextID] and [c.stop] open,
    [nextIDLoop] running, the stream not closed; or a reason recorded, both
    channels closed, [nextIDLoop] returned and the stream closed exactly
    once.  The reader is in or past its deferred function only when the
    connection is closed. *)
Theorem X1_lifecycle_consistent (s : system) :
  reachable s →
  (stopErr (conn s) = None ∧ nextID_closed (conn s) = false ∧
   stop_closed (conn s) = false ∧ is_Some (idloop (conn s)) ∧
   closes (rw (conn s)) = 0 ∧
   rdloop (conn s) ≠ RdDefer ∧ rdloop (conn s) ≠ RdExit) ∨
  (is_Some (stopErr (conn s)) ∧ nextID_closed (conn s) = true ∧
   stop_closed (conn s) = true ∧ idloop (conn s) = None ∧
   closes (rw (conn s)) = 1).
Proof.
  intros Hr. pose proof (reachable_inv s Hr) as Hinv.
  destruct (stopErr (conn s)) as [e|] eqn:He.
  - right. split; [done|]. apply (inv_shut s Hinv). by rewrite He.
  - left. split; [done|]. by apply (inv_open s Hinv).
Qed.

Lemma X1_lifecycle_consistent_witness :
  reachable closed_sys ∧
  is_Some (stopErr (conn closed_sys)) ∧ closes (rw (conn closed_sys)) = 1.
Proof.
  assert (Hr : reachable closed_sys)
    by (apply (reachable_by quiet
                 [InClose; InCall ApiMetadata (Start req0);
                  InCall ApiProduce (Start req0)] [Thread 0]);
        vm_compute; reflexivity).
  split; [exact Hr|].
  destruct (X1_lifecycle_consistent closed_sys Hr)
    as [(Hnone & _)|(Hsome & _ & _ & _ & Hcl)].
  - vm_compute in Hnone. discriminate.
  - by split.
Defined.

(** ** Distinct tokens *)

(** X2.  The tokens handed out by a new connection are pairwise distinct as
    long as there are at most 2^31-2 of them, and the sequence repeats with
    period 2^31-2: the token handed out 2^31-2 places after another is the
    same token. *)
Theorem X2_tokens_distinct_then_repeat (rw0 : stream) :
  (∀ n : nat, (Z.of_nat n ≤ 2 ^ 31 - 2)%Z → NoDup (take_ids n (opened rw0))) ∧
  (∀ n k k' : nat, k' < n → (Z.of_nat k' = Z.of_nat k + (2 ^ 31 - 2))%Z →
     take_ids n (opened rw0) !! k' = take_ids n (opened rw0) !! k).
Proof.
  destruct (token_sequence rw0) as (_ & _ & _ & Hk & _ & Hlen). split.
  - intros n Hn. apply NoDup_alt. intros i j id Hi Hj.
    pose proof (lookup_lt_Some _ _ _ Hi) as Hli.
    pose proof (lookup_lt_Some _ _ _ Hj) as Hlj.
    rewrite Hlen in Hli, Hlj.
    rewrite (Hk n i Hli) in Hi. rewrite (Hk n j Hlj) in Hj.
    rewrite Z.mod_small in Hi, Hj by lia. simplify_eq. lia.
  - intros n k k' Hk' Heq.
    rewrite (Hk n k' Hk'), (Hk n k) by lia. do 2 f_equal.
    rewrite Heq. replace (Z.of_nat k + (2 ^ 31 - 2))%Z
      with (Z.of_nat k + 1 * (2 ^ 31 - 2))%Z by lia.
    by rewrite Z.mod_add by lia.
Qed.

(** ** The log of unknown responses *)

(** X3.  Every correlation ID reported by the reader as a response to an
    unknown request was read from the stream as the tag of a frame. *)
Theorem X3_logged_ids_were_read (s : system) :
  reachable s →
  ∀ id, id ∈ logged (conn s) → ∃ b, (id, b) ∈ rd_done (rw (conn s)).
Proof.
  revert s.
  apply (reachable_ind (λ s, ∀ id, id ∈ logged (conn s) →
                               ∃ b, (id, b) ∈ rd_done (rw (conn s)))).
  - intros rw0 ts _ _ _ id Hin. cbn in Hin. by apply elem_of_nil in Hin.
  - intros ch s s' Hr IH Hs. pose proof (reachable_inv s Hr) as Hinv.
    pose proof (inv_route s Hinv) as Hroute.
    apply step_trans in Hs. destruct Hs; cbn in *; try done.
    + intros id Hin. destruct (IH id Hin) as [b Hb]. exists b.
      rewrite H1. destruct r; [by right | done].
    + intros id' [->|Hin]%elem_of_cons; eauto.
    + by rewrite H1.
Qed.

Lemma X3_logged_ids_were_read_witness :
  reachable logged_sys ∧ logged (conn logged_sys) = [7%Z] ∧
  ∃ b, (7%Z, b) ∈ rd_done (rw (conn logged_sys)).
Proof.
  assert (Hr : reachable logged_sys)
    by (apply (reachable_by
                 {| rd_next := [inl (7%Z, [x07]); inl (1%Z, [x01])];
                    rd_done := []; wr_next := []; wr_done := [];
                    close_res := None; closes := 0 |}
                 [InCall ApiOffset (Start req0)]
                 [Thread 0; Thread 0; Thread 0; Reader; Reader]);
        vm_compute; reflexivity).
  split; [exact Hr|]. split; [vm_compute; reflexivity|].
  apply (X3_logged_ids_were_read _ Hr 7%Z). vm_compute. left.
Defined.

(** ** The shape of calls in progress *)

Lemma thread_step_shaped (t t' : thread) (c c' : connection) :
  shaped t → thread_step t c = Ok (t', c') → shaped t'.
Proof.
  intros Hsh Hs. destruct t as [a pc| |e]; cbn in Hs.
  - destruct (method a pc c) as [[pc' c1]| |] eqn:Hm; [|done..].
    cbn in Hs. simplify_eq.
    destruct pc as [req|req|req|req|req rc|req rc|req|req r].
    + rewrite method_start in Hm.
      destruct (recv_nextID c) as [[[id ok] c1]| |]; [|done..]. cbn in Hm.
      destruct ok; cbn in Hm; [|by simplify_eq].
      destruct a; try (simplify_eq; by cbn).
      destruct (Z.eqb_spec (RequiredAcks req) RequiredAcksNone);
        simplify_eq; by cbn.
    + rewrite (proj1 (method_stopErr a req c)) in Hm. by simplify_eq.
    + rewrite method_register in Hm.
      destruct (respWaiter (CorrelationID req) c) as [[rc|err] c1];
        simplify_eq; [|done].
      cbn in *. split; [by destruct a|]. by intros ->.
    + destruct a; try done. cbn in Hm.
      destruct (WriteTo ApiProduce req c). by simplify_eq.
    + rewrite method_write in Hm.
      destruct (WriteTo a req c) as [[err|] c1]; simplify_eq; cbn in *;
        first [done | exact Hsh].
    + rewrite method_wait in Hm.
      destruct (recv_resp rc c) as [[[b []] c1]| |]; cbn in Hm; by simplify_eq.
    + rewrite (proj2 (method_stopErr a req c)) in Hm. by simplify_eq.
    + by destruct a.
  - destruct (Close c) as [[r c1]| |]; cbn in Hs; by simplify_eq.
  - done.
Qed.

Lemma reachable_shaped (s : system) :
  reachable s → ∀ i t, threads s !! i = Some t → shaped t.
Proof.
  revert s. apply (reachable_ind (λ s, ∀ i t, threads s !! i = Some t → shaped t)).
  - intros rw0 ts Hall _ _ i t Hi. cbn in Hi.
    apply (fresh_lookup _ _ _ Hall) in Hi. by destruct t as [a []| |].
  - intros ch s s' _ IH Hs i t Hi. destruct s as [c ts].
    destruct ch as [|j]; cbn in Hs.
    + destruct (readRespLoop c); cbn in Hs; simplify_eq. eauto.
    + destruct (ts !! j) as [tj|] eqn:Hj; [|done].
      destruct (thread_step tj c) as [[tj' c']| |] eqn:Ht; cbn in Hs;
        simplify_eq. cbn in Hi.
      apply thread_update in Hi as [[-> ->]|[_ Hi]]; [|by eauto].
      eapply thread_step_shaped; [|done]. by eapply (IH j).
Qed.

(** ** Where a goroutine can be kept waiting *)

Lemma step_thread_Blocked (s : system) (i : nat) (t : thread) :
  threads s !! i = Some t → step (Thread i) s = Blocked →
  thread_step t (conn s) = Blocked.
Proof.
  intros Hi Hs. cbn in Hs. rewrite Hi in Hs.
  by destruct (thread_step t (conn s)) as [[??]| |].
Qed.

(** X4.  In a reachable state a goroutine that cannot move has either
    finished, or is a call waiting on its response channel while that
    channel is open and its entry is still in the table.  Taking a token,
    registering, writing and closing never keep a goroutine waiting. *)
Theorem X4_blocked_only_waiting (s : system) (i : nat) (t : thread) :
  reachable s → threads s !! i = Some t → step (Thread i) s = Blocked →
  (∃ a req rc, t = InCall a (Wait req rc) ∧
     chans (conn s) !! rc = Some false ∧
     respc (conn s) !! CorrelationID req = Some rc) ∨
  (∃ a req r, t = InCall a (Return req r)) ∨
  (∃ e, t = CloseReturned e).
Proof.
  intros Hr Hi Hs. pose proof (reachable_inv s Hr) as Hinv.
  pose proof (reachable_shaped s Hr i t Hi) as Hsh.
  apply (step_thread_Blocked s i t Hi) in Hs.
  destruct t as [a pc| |e]; [|exfalso|by eauto].
  2: { cbn in Hs. unfold Close in Hs.
       rewrite (closeConnection_inv s ErrClosed Hinv) in Hs.
       by destruct (stopErr (conn s)). }
  cbn in Hs.
  assert (Hm : method a pc (conn s) = Blocked)
    by by destruct (method a pc (conn s)) as [[??]| |].
  clear Hs. destruct pc as [req|req|req|req|req rc|req rc|req|req r].
  - exfalso. rewrite method_start in Hm. unfold recv_nextID in Hm.
    destruct (stopErr (conn s)) as [e|] eqn:He.
    + destruct (inv_shut s Hinv) as (Hcl & _); [by rewrite He|].
      rewrite Hcl in Hm. by destruct a.
    + destruct (inv_open s Hinv He) as (Hcl & _ & [id Hid] & _).
      rewrite Hcl, Hid in Hm. cbn in Hm. destruct a; by repeat case_match.
  - exfalso. by rewrite (proj1 (method_stopErr a req (conn s))) in Hm.
  - exfalso. rewrite method_register in Hm.
    by destruct (respWaiter _ _) as [[?|?] ?].
  - exfalso. destruct Hsh as [-> _]. by cbn in Hm.
  - exfalso. rewrite method_write in Hm.
    by destruct (WriteTo _ _ _) as [[?|] ?].
  - left. exists a, req, rc. split; [done|].
    rewrite method_wait in Hm. unfold recv_resp in Hm.
    destruct (inv_holds s Hinv i _ _ _ Hi eq_refl) as [Hlt [Htab|[b Hb]]].
    + destruct (lookup_lt_is_Some_2 _ _ Hlt) as [cl Hcl].
      rewrite Hcl in Hm. destruct cl; [done|]. by split.
    + destruct (inv_send s Hinv _ _ _ Hb) as (Hopen & _).
      rewrite Hopen, Hb in Hm. by rewrite decide_True in Hm.
  - exfalso. by rewrite (proj2 (method_stopErr a req (conn s))) in Hm.
  - right. left. eauto.
Qed.

Lemma X4_blocked_only_waiting_witness :
  reachable draining_sys ∧ step (Thread 0) draining_sys = Blocked ∧
  chans (conn draining_sys) !! 0 = Some false.
Proof.
  assert (Hr : reachable draining_sys)
    by (apply (reachable_by broken [InCall ApiFetch (Start req0)]
                 [Thread 0; Thread 0; Thread 0; Reader; Reader]);
        vm_compute; reflexivity).
  assert (Hi : threads draining_sys !! 0
               = Some (InCall ApiFetch (Wait (set_CorrelationID 1 req0) 0)))
    by (vm_compute; reflexivity).
  assert (Hb : step (Thread 0) draining_sys = Blocked)
    by (vm_compute; reflexivity).
  split; [exact Hr|]. split; [exact Hb|].
  destruct (X4_blocked_only_waiting draining_sys 0 _ Hr Hi Hb)
    as [(a & req & rc & Heq & Hopen & _)|[(a & req & r & Heq)|[e Heq]]];
    [|discriminate..].
  by simplify_eq.
Defined.

(** ** What is written to the stream *)

(** A step either leaves the list of written requests alone or puts the
    request of a call at its write point in front. *)
Lemma step_wr_done (ch : choice) (s s' : system) :
  step ch s = Ok s' →
  wr_done (rw (conn s')) = wr_done (rw (conn s)) ∨
  ∃ i t ar, threads s !! i = Some t ∧ writing t = Some ar ∧
    wr_done (rw (conn s')) = ar :: wr_done (rw (conn s)).
Proof.
  destruct s as [c ts]. destruct ch as [|i]; cbn.
  - destruct (readRespLoop c) as [c'| |] eqn:Hr; [|done..].
    intros [= <-]. left. cbn. unfold readRespLoop in Hr.
    destruct (rdloop c) as [|e|id b|id rc b|rc| |] eqn:Hrd.
    + unfold ReadResp in Hr.
      destruct (rd_next (rw c)) as [|[[??]|?] ?]; cbn in Hr;
        [destruct (closes (rw c)); cbn in Hr|..]; by simplify_eq.
    + destruct (closeConnection (Some e) c) as [[r c1]| |] eqn:Hcl; [|done..].
      cbn in Hr. simplify_eq.
      by apply closeConnection_Ok in Hcl as [(_ & _ & _ & -> & _)|(? & _ & -> & _)].
    + destruct (respc c !! id); by simplify_eq.
    + by repeat case_match.
    + destruct (close_chan rc (chans c)); cbn in Hr; by simplify_eq.
    + destruct (close_all (respc c) (chans c)); cbn in Hr; by simplify_eq.
    + done.
  - destruct (ts !! i) as [t|] eqn:Hi; [|done].
    destruct (thread_step t c) as [[t' c']| |] eqn:Ht; [|done..].
    cbn. intros [= <-]. cbn. destruct t as [a pc| |err]; cbn in Ht.
    + destruct (method a pc c) as [[pc' c1]| |] eqn:Hm; [|done..].
      cbn in Ht. simplify_eq.
      destruct pc as [req|req|req|req|req rc|req rc|req|req r].
      * left. rewrite method_start in Hm.
        destruct (recv_nextID c) as [[[id ok] c1]| |] eqn:Hrecv; [|done..].
        apply recv_nextID_Ok in Hrecv as [(-> & _ & _ & ->)|(-> & _ & _ & ->)];
          cbn in Hm; destruct a; repeat case_match; by simplify_eq.
      * left. rewrite (proj1 (method_stopErr a req c)) in Hm. by simplify_eq.
      * left. rewrite method_register in Hm. unfold respWaiter in Hm.
        destruct (respc c !! CorrelationID req); by simplify_eq.
      * right. destruct a; try done. cbn in Hm. simplify_eq.
        exists i, (InCall ApiProduce (WriteOnly req)), (ApiProduce, req).
        by cbn.
      * right. rewrite method_write in Hm.
        pose proof (WriteTo_fields a req c) as (_ & _ & _ & _ & _ & Hwr).
        exists i, (InCall a (Write req rc)), (a, req).
        destruct (WriteTo a req c) as [[?|] ?]; by simplify_eq.
      * left. rewrite method_wait in Hm.
        destruct (recv_resp rc c) as [[[b ok] c1]| |] eqn:Hrecv; [|done..].
        apply recv_resp_Ok in Hrecv as [(-> & _ & _ & ->)|(-> & _ & _ & ->)];
          cbn in Hm; by simplify_eq.
      * left. rewrite (proj2 (method_stopErr a req c)) in Hm. by simplify_eq.
      * by destruct a.
    + left. unfold Close in Ht.
      destruct (closeConnection (Some ErrClosed) c) as [[r c1]| |] eqn:Hcl;
        [|done..].
      cbn in Ht. simplify_eq.
      by apply closeConnection_Ok in Hcl as [(_ & _ & _ & -> & _)|(? & _ & -> & _)].
    + done.
Qed.

(** X5.  Start from a new connection on which nothing has been written.
    Whatever the schedule, every request that has been handed to the stream
    carries a correlation ID between 1 and 2^31-2, and every [Offset]
    request among them has replica ID -1. *)
Theorem X5_written_requests (rw0 : stream) (ts : list thread)
    (sched : list choice) (s : system) :
  forallb fresh ts = true → closes rw0 = 0 → rd_done rw0 = [] →
  wr_done rw0 = [] →
  run sched {| conn := opened rw0; threads := ts |} = Ok s →
  ∀ a r, (a, r) ∈ wr_done (rw (conn s)) →
    (1 ≤ CorrelationID r ≤ 2 ^ 31 - 2)%Z ∧
    (a = ApiOffset → ReplicaID r = (-1)%Z).
Proof.
  intros Hall Hcl Hrd Hwr Hrun.
  assert (Hr0 : reachable {| conn := opened rw0; threads := ts |})
    by (apply (reachable_by rw0 ts []); [done..|reflexivity]).
  eapply (run_invariant
           (λ s, ∀ a r, (a, r) ∈ wr_done (rw (conn s)) →
                   (1 ≤ CorrelationID r ≤ 2 ^ 31 - 2)%Z ∧
                   (a = ApiOffset → ReplicaID r = (-1)%Z)));
    [|exact Hr0| |exact Hrun].
  - intros ch s1 s2 Hr1 IH Hs a r Hin.
    destruct (step_wr_done _ _ _ Hs) as [Heq|(i & t & ar & Hi & Hw & Heq)];
      rewrite Heq in Hin; [by apply IH|].
    apply elem_of_cons in Hin as [<-|Hin]; [|by apply IH].
    pose proof (reachable_inv s1 Hr1) as Hinv.
    pose proof (reachable_shaped s1 Hr1 i t Hi) as Hsh.
    assert (Htok : token_of t = Some (CorrelationID r))
      by (destruct t as [? []| |]; cbn in Hw; by simplify_eq).
    pose proof (inv_token s1 Hinv i t _ Hi Htok) as Hin.
    unfold in_range, MaxInt32 in Hin. split; [lia|].
    intros ->. destruct t as [? []| |]; cbn in Hw; simplify_eq; cbn in Hsh.
    + by destruct Hsh.
    + by apply Hsh.
  - intros a r Hin. cbn in Hin. rewrite Hwr in Hin.
    by apply elem_of_nil in Hin.
Qed.

Lemma X5_written_requests_witness :
  wr_done (rw (conn offset_written_sys))
  = [(ApiOffset, set_ReplicaID (-1) (set_CorrelationID 1 req0))] ∧
  ∀ a r, (a, r) ∈ wr_done (rw (conn offset_written_sys)) →
    (1 ≤ CorrelationID r ≤ 2 ^ 31 - 2)%Z ∧
    (a = ApiOffset → ReplicaID r = (-1)%Z).
Proof.
  split; [vm_compute; reflexivity|].
  apply (X5_written_requests quiet [InCall ApiOffset (Start req0)]
           [Thread 0; Thread 0; Thread 0]); vm_compute; reflexivity.
Defined.

(** ** A send that nobody receives *)

Lemma step_stuck (ch : choice) (s s' : system) (id : Z) (rc : chan)
    (b : payload) :
  inv s → rdloop (conn s) = RdSend id rc b → unheld rc s →
  step ch s = Ok s' →
  ch ≠ Reader ∧ rdloop (conn s') = RdSend id rc b ∧ unheld rc s'.
Proof.
  intros Hinv Hrd Hun Hs.
  destruct (inv_send s Hinv _ _ _ Hrd) as (Hopen & _).
  pose proof (lookup_lt_Some _ _ _ Hopen) as Hlt.
  split.
  { intros ->. cbn in Hs. unfold readRespLoop in Hs.
    by rewrite Hrd, Hopen in Hs. }
  apply step_trans in Hs. unfold unheld in *.
  destruct Hs; cbn in *; try congruence.
  - split; [done|]. intros j t0 tok [[-> ->]|[_ Hj]]%thread_update; [|eauto].
    destruct H2 as [-> | ->]; [done|eauto].
  - split; [done|]. intros j t0 tok [[-> ->]|[_ Hj]]%thread_update; [done|eauto].
  - split; [done|]. intros j t0 tok [[-> ->]|[_ Hj]]%thread_update; [|eauto].
    by rewrite H2.
  - split; [done|]. intros j t0 tok [[-> ->]|[_ Hj]]%thread_update; [|eauto].
    cbn. intros [= _ <-]. lia.
  - exfalso. rewrite Hrd in H0. simplify_eq. by eapply (Hun i _ _ H).
Qed.

Lemma run_stuck (sched : list choice) :
  ∀ (s s' : system) (id : Z) (rc : chan) (b : payload),
    inv s → rdloop (conn s) = RdSend id rc b → unheld rc s →
    run sched s = Ok s' →
    (Reader ∉ sched) ∧ rdloop (conn s') = RdSend id rc b ∧ unheld rc s'.
Proof.
  induction sched as [|ch sched IH]; intros s s' id rc b Hinv Hrd Hun Hrun;
    cbn in Hrun.
  - simplify_eq. split; [apply not_elem_of_nil|done].
  - destruct (step ch s) as [s1| |] eqn:Hs; [|done..]. cbn in Hrun.
    destruct (step_stuck _ _ _ _ _ _ Hinv Hrd Hun Hs) as (Hne & Hrd1 & Hun1).
    destruct (IH _ _ _ _ _ (inv_step _ _ _ Hinv Hs) Hrd1 Hun1 Hrun)
      as (Hni & ? & ?).
    split; [|done]. by apply not_elem_of_cons.
Qed.

(** X6.  Suppose the reader is sending a response on a channel that no
    goroutine holds, as happens when the call that registered the token has
    returned a write error and the response arrives nevertheless.  Then,
    whatever the other goroutines do, [Close] included, the reader never
    takes another step, and every call waiting for a response stays blocked:
    its channel is neither served nor closed. *)
Theorem X6_unreceived_send_blocks_reader (s : system) (id : Z) (rc : chan)
    (b : payload) :
  reachable s → rdloop (conn s) = RdSend id rc b → unheld rc s →
  ∀ sched s', run sched s = Ok s' →
    (Reader ∉ sched) ∧ rdloop (conn s') = RdSend id rc b ∧
    step Reader s' = Blocked ∧
    ∀ i a req rc', threads s' !! i = Some (InCall a (Wait req rc')) →
      chans (conn s') !! rc' = Some false ∧ step (Thread i) s' = Blocked.
Proof.
  intros Hr Hrd Hun sched s' Hrun. pose proof (reachable_inv s Hr) as Hinv.
  destruct (run_stuck sched _ _ _ _ _ Hinv Hrd Hun Hrun) as (Hni & Hrd' & Hun').
  pose proof (inv_run _ _ _ Hinv Hrun) as Hinv'.
  destruct (inv_send s' Hinv' _ _ _ Hrd') as (Hopen & _).
  split; [done|]. split; [done|]. split.
  { cbn. unfold readRespLoop. by rewrite Hrd', Hopen. }
  intros i a req rc' Hi.
  assert (Hne : rc ≠ rc') by (intros <-; by eapply (Hun' i)).
  assert (Hopen' : chans (conn s') !! rc' = Some false).
  { destruct (inv_holds s' Hinv' i _ _ _ Hi eq_refl) as [_ [Htab|[b' Hb']]].
    - eapply (inv_tab_open s' Hinv'); [done|congruence].
    - rewrite Hrd' in Hb'. by simplify_eq. }
  split; [done|]. cbn. rewrite Hi. cbn. rewrite method_wait. unfold recv_resp.
  rewrite Hopen', Hrd'. by rewrite decide_False.
Qed.

Lemma X6_unreceived_send_blocks_reader_witness :
  reachable stuck_sys ∧ rdloop (conn stuck_sys) = RdSend 1 0 [x01] ∧
  threads stuck_sys !! 1
  = Some (InCall ApiFetch (Wait (set_CorrelationID 2 req0) 1)) ∧
  step Reader stuck_sys = Blocked ∧ step (Thread 1) stuck_sys = Blocked.
Proof.
  assert (Hr : reachable stuck_sys)
    by (apply (reachable_by late_answer two_callers
                 [Thread 0; Thread 0; Thread 0; Thread 1; Thread 1; Thread 1;
                  Reader; Reader]);
        vm_compute; reflexivity).
  assert (Hrd : rdloop (conn stuck_sys) = RdSend 1 0 [x01])
    by (vm_compute; reflexivity).
  assert (Hun : unheld 0 stuck_sys).
  { intros i t tok Hi. destruct i as [|[|i]]; vm_compute in Hi; by simplify_eq. }
  assert (Hi : threads stuck_sys !! 1
               = Some (InCall ApiFetch (Wait (set_CorrelationID 2 req0) 1)))
    by (vm_compute; reflexivity).
  destruct (X6_unreceived_send_blocks_reader stuck_sys 1 0 [x01] Hr Hrd Hun
              [] stuck_sys eq_refl) as (_ & _ & Hb & Hw).
  destruct (Hw 1 _ _ _ Hi) as [_ Hb1].
  exact (conj Hr (conj Hrd (conj Hi (conj Hb Hb1)))).
Defined.

(** ** Registering after the reader has returned *)




(** ** Closing while callers wait *)

Lemma run_cons_Ok (ch : choice) (sched : list choice) (s s1 : system)
    (r : result system) :
  step ch s = Ok s1 → run sched s1 = r → run (ch :: sched) s = r.
Proof. intros Hs <-. cbn. by rewrite Hs. Qed.

(** The reader's deferred function wakes every waiting caller. *)
Lemma drain_unblocks (s : system) (e : err_val) :
  inv s → rdloop (conn s) = RdDefer → stopErr (conn s) = Some e →
  ∃ s1, step Reader s = Ok s1 ∧ threads s1 = threads s ∧
    rdloop (conn s1) = RdExit ∧ stopErr (conn s1) = Some e ∧
    ∀ i a req rc, threads s !! i = Some (InCall a (Wait req rc)) →
      ∀ sched1 s2, run sched1 s1 = Ok s2 → Thread i ∉ sched1 →
        ∃ s3, step (Thread i) s2 = Ok s3 ∧
          ∀ sched2 s4, run sched2 s3 = Ok s4 → Thread i ∉ sched2 →
            ∃ s5, step (Thread i) s4 = Ok s5 ∧
              threads s5 !! i
              = Some (InCall a (Return req (RetErr (Some e)))).
Proof.
  intros Hinv Hrd He.
  destruct (close_all_total (respc (conn s)) (chans (conn s))) as [chs Hall].
  { apply (inv_tab_inj s Hinv). }
  { intros tok rc Htab. eapply (inv_tab_open s Hinv); [done|congruence]. }
  pose proof (close_all_Ok _ _ _ Hall) as (_ & Hclosed & _).
  eexists. split.
  { apply reader_step_at. unfold readRespLoop. rewrite Hrd, Hall. done. }
  cbn. repeat (split; [done|]).
  intros i a req rc Hi sched1 s2 Hrun1 Hni1.
  destruct (inv_holds s Hinv i _ _ _ Hi eq_refl) as [_ [Htab|[b Hb]]];
    [|congruence].
  pose proof (run_settled _ _ _ Hrun1) as (Hst1 & _ & Hch1 & _).
  pose proof (Hch1 rc (Hclosed _ _ Htab)) as Hrc. cbn in Hst1.
  assert (Hi2 : threads s2 !! i = Some (InCall a (Wait req rc)))
    by by rewrite (run_frame _ _ _ _ Hrun1 Hni1).
  destruct (thread_step_at s2 i _ (InCall a (SawDrained req)) (conn s2) Hi2)
    as (s3 & Hs3 & Hi3 & Hc3).
  { unfold thread_step. rewrite method_wait. unfold recv_resp.
    by rewrite Hrc. }
  exists s3. split; [done|].
  eapply returns_stopErr; [by right | done |].
  rewrite Hc3. by apply Hst1.
Qed.

(** X8.  Let the connection be open, the reader be waiting for a frame with
    nothing left to read, and a goroutine call [Close].  The call returns
    the result of closing the stream; the read then fails because the stream
    is closed, the reader keeps the recorded reason [ErrClosed], closes every
    pending channel and returns.  After that every caller that was waiting
    returns [ErrClosed], whatever the others do. *)
Theorem X8_close_unblocks_waiters (s : system) (j : nat) :
  reachable s → stopErr (conn s) = None → rdloop (conn s) = RdRead →
  rd_next (rw (conn s)) = [] → threads s !! j = Some InClose →
  ∃ s4, run [Thread j; Reader; Reader; Reader] s = Ok s4 ∧
    threads s4 !! j = Some (CloseReturned (close_res (rw (conn s)))) ∧
    rdloop (conn s4) = RdExit ∧ stopErr (conn s4) = Some ErrClosed ∧
    ∀ i a req rc, threads s !! i = Some (InCall a (Wait req rc)) →
      ∀ sched1 s5, run sched1 s4 = Ok s5 → Thread i ∉ sched1 →
        ∃ s6, step (Thread i) s5 = Ok s6 ∧
          ∀ sched2 s7, run sched2 s6 = Ok s7 → Thread i ∉ sched2 →
            ∃ s8, step (Thread i) s7 = Ok s8 ∧
              threads s8 !! i
              = Some (InCall a (Return req (RetErr (Some ErrClosed)))).
Proof.
  intros Hr He Hrd Hnext Hj. pose proof (reachable_inv s Hr) as Hinv.
  destruct (Close_thread s j Hinv Hj) as (s1 & Hs1 & Hj1 & Hc1).
  rewrite He in Hj1, Hc1.
  pose proof (reachable_step _ _ _ Hr Hs1) as Hr1.
  set (e := ErrStream "use of closed network connection").
  assert (Hs2 : step Reader s1
                = Ok {| conn := set_rdloop (RdFail e) (conn s1);
                        threads := threads s1 |}).
  { apply reader_step_at. rewrite Hc1. unfold readRespLoop, ReadResp. cbn.
    by rewrite Hrd, Hnext. }
  pose proof (reachable_step _ _ _ Hr1 Hs2) as Hr2.
  pose proof (reachable_inv _ Hr2) as Hinv2.
  assert (He2 : stopErr (set_rdloop (RdFail e) (conn s1)) = Some ErrClosed)
    by by rewrite Hc1.
  assert (Hs3 : step Reader {| conn := set_rdloop (RdFail e) (conn s1);
                               threads := threads s1 |}
                = Ok {| conn := set_rdloop RdDefer
                                  (set_rdloop (RdFail e) (conn s1));
                        threads := threads s1 |}).
  { apply (reader_step_at {| conn := set_rdloop (RdFail e) (conn s1);
                             threads := threads s1 |}).
    unfold readRespLoop. cbn [conn rdloop set_rdloop].
    pose proof (closeConnection_inv _ e Hinv2) as Hcl. cbn [conn] in Hcl.
    by rewrite Hcl, He2. }
  pose proof (reachable_step _ _ _ Hr2 Hs3) as Hr3.
  destruct (drain_unblocks _ ErrClosed (reachable_inv _ Hr3) eq_refl He2)
    as (s4 & Hs4 & Hts4 & Hrd4 & He4 & Hw).
  exists s4. split.
  { eapply run_cons_Ok; [exact Hs1|]. eapply run_cons_Ok; [exact Hs2|].
    eapply run_cons_Ok; [exact Hs3|]. eapply run_cons_Ok; [exact Hs4|]. done. }
  split; [by rewrite Hts4|]. split; [done|]. split; [done|].
  intros i a req rc Hi. apply (Hw i a req rc). cbn.
  rewrite (step_frame _ _ _ i Hs1); [done|]. intros [= ->]. congruence.
Qed.

Lemma X8_close_unblocks_waiters_witness :
  reachable waiting_sys ∧
  ∃ s4 s6 s8,
    run [Thread 2; Reader; Reader; Reader] waiting_sys = Ok s4 ∧
    step (Thread 1) s4 = Ok s6 ∧ step (Thread 1) s6 = Ok s8 ∧
    threads s8 !! 1
    = Some (InCall ApiOffsetFetch
              (Return (set_CorrelationID 2 req0) (RetErr (Some ErrClosed)))).
Proof.
  assert (Hr : reachable waiting_sys)
    by (apply (reachable_by quiet
                 [InCall ApiMetadata (Start req0);
                  InCall ApiOffsetFetch (Start req0); InClose]
                 [Thread 0; Thread 0; Thread 0; Thread 1; Thread 1; Thread 1]);
        vm_compute; reflexivity).
  split; [exact Hr|].
  assert (He : stopErr (conn waiting_sys) = None) by (vm_compute; reflexivity).
  assert (Hrd : rdloop (conn waiting_sys) = RdRead) by (vm_compute; reflexivity).
  assert (Hn : rd_next (rw (conn waiting_sys)) = []) by (vm_compute; reflexivity).
  assert (Hj : threads waiting_sys !! 2 = Some InClose)
    by (vm_compute; reflexivity).
  assert (Hi : threads waiting_sys !! 1
               = Some (InCall ApiOffsetFetch (Wait (set_CorrelationID 2 req0) 1)))
    by (vm_compute; reflexivity).
  destruct (X8_close_unblocks_waiters waiting_sys 2 Hr He Hrd Hn Hj)
    as (s4 & Hrun & _ & _ & _ & Hw).
  destruct (Hw 1 _ _ _ Hi [] s4 eq_refl) as (s6 & Hs6 & Hw6);
    [apply not_elem_of_nil|].
  destruct (Hw6 [] s6 eq_refl) as (s8 & Hs8 & Hi8); [apply not_elem_of_nil|].
  exists s4, s6, s8. exact (conj Hrun (conj Hs6 (conj Hs8 Hi8))).
Defined.

(** ** A complete exchange *)

Lemma reader_step_ex (s : system) (c' : connection) :
  readRespLoop (conn s) = Ok c' →
  ∃ s', step Reader s = Ok s' ∧ threads s' = threads s ∧ conn s' = c'.
Proof. intros H. eexists. split; [by apply reader_step_at|done]. Qed.

(** X9.  Let a call that expects a response start on an open connection
    whose next token [id] is not pending, with the reader about to read, the
    write succeeding and the next frame carrying [id] and the payload [b].
    If the exchange runs undisturbed the call returns [b] for its own
    decoder, with [id] as the correlation ID of its request; the request was
    written with that ID; and afterwards the table is exactly what it was,
    the channel made for the call is closed, and the reader is back at
    reading the rest of the stream. *)
Theorem X9_exchange_round_trip (s : system) (i : nat) (a : api)
    (req : request) (id : Z) (b : payload)
    (rest : list (Z * payload + err_val)) :
  threads s !! i = Some (InCall a (Start req)) →
  (a = ApiProduce → RequiredAcks req ≠ RequiredAcksNone) →
  nextID_closed (conn s) = false → idloop (conn s) = Some id →
  respc (conn s) !! id = None →
  rdloop (conn s) = RdRead →
  rd_next (rw (conn s)) = inl (id, b) :: rest →
  default None (head (wr_next (rw (conn s)))) = None →
  ∃ s', run (exchange_sched i) s = Ok s' ∧
    threads s' !! i
    = Some (InCall a (Return (as_written a (set_CorrelationID id req))
                        (RetDecode a b))) ∧
    (∀ j, j ≠ i → threads s' !! j = threads s !! j) ∧
    respc (conn s') = respc (conn s) ∧
    chans (conn s') = chans (conn s) ++ [true] ∧
    rdloop (conn s') = RdRead ∧
    rd_next (rw (conn s')) = rest ∧
    rd_done (rw (conn s')) = (id, b) :: rd_done (rw (conn s)) ∧
    wr_done (rw (conn s'))
    = (a, as_written a (set_CorrelationID id req)) :: wr_done (rw (conn s)) ∧
    stopErr (conn s') = stopErr (conn s) ∧ logged (conn s') = logged (conn s).
Proof.
  intros Hi Hacks Hopen Hid Htab Hrd Hnext Hwr.
  set (req1 := set_CorrelationID id req).
  set (req2 := as_written a req1).
  set (ch := length (chans (conn s))).
  (* the token *)
  destruct (thread_step_at s i _ (InCall a (Register req1))
              (set_idloop (nextIDLoop id case_send) (conn s)) Hi)
    as (s1 & Hs1 & Hi1 & Hc1).
  { unfold thread_step. rewrite method_start. unfold recv_nextID.
    rewrite Hopen, Hid. cbn. destruct a; try done.
    destruct (Z.eqb_spec (RequiredAcks req) RequiredAcksNone); [|done].
    by destruct Hacks. }
  (* the registration *)
  destruct (thread_step_at s1 i _ (InCall a (Write req2 ch))
              (set_respc (<[id := ch]> (respc (conn s)))
                 (set_chans (chans (conn s) ++ [false]) (conn s1))) Hi1)
    as (s2 & Hs2 & Hi2 & Hc2).
  { unfold thread_step. rewrite method_register. unfold respWaiter.
    rewrite Hc1. cbn. rewrite Htab. by destruct a. }
  (* the write *)
  pose proof (WriteTo_fields a req2 (conn s2))
    as (Herr & Htab3 & Hch3 & Hst3 & Hrd3 & Hwr3).
  destruct (thread_step_at s2 i _ (InCall a (Wait req2 ch))
              (WriteTo a req2 (conn s2)).2 Hi2) as (s3 & Hs3 & Hi3 & Hc3).
  { unfold thread_step. rewrite method_write.
    destruct (WriteTo a req2 (conn s2)) as [e c3]. cbn in Herr. subst e.
    rewrite Hc2, Hc1. cbn. by rewrite Hwr. }
  unfold WriteTo in Hc3. cbn [snd] in Hc3.
  (* the read *)
  destruct (reader_step_ex s3
              (set_rdloop (RdRoute id b)
                 (set_rw {| rd_next := rest;
                            rd_done := (id, b) :: rd_done (rw (conn s3));
                            wr_next := wr_next (rw (conn s3));
                            wr_done := wr_done (rw (conn s3));
                            close_res := close_res (rw (conn s3));
                            closes := closes (rw (conn s3)) |} (conn s3))))
    as (s4 & Hs4 & Ht4 & Hc4).
  { unfold readRespLoop, ReadResp. rewrite Hc3, Hc2, Hc1. cbn.
    by rewrite Hrd, Hnext. }
  (* the routing *)
  destruct (reader_step_ex s4
              (set_rdloop (RdSend id ch b)
                 (set_respc (delete id (respc (conn s4))) (conn s4))))
    as (s5 & Hs5 & Ht5 & Hc5).
  { unfold readRespLoop. rewrite Hc4, Hc3, Hc2, Hc1. cbn.
    by rewrite lookup_insert_eq. }
  (* the receive *)
  assert (Hi5 : threads s5 !! i = Some (InCall a (Wait req2 ch)))
    by by rewrite Ht5, Ht4.
  destruct (thread_step_at s5 i _ (InCall a (Return req2 (RetDecode a b)))
              (set_rdloop (RdCloseCh ch) (conn s5)) Hi5)
    as (s6 & Hs6 & Hi6 & Hc6).
  { unfold thread_step. rewrite method_wait. unfold recv_resp.
    rewrite Hc5, Hc4, Hc3, Hc2, Hc1. cbn.
    rewrite lookup_app_r, Nat.sub_diag by done. cbn.
    by rewrite decide_True. }
  (* the close *)
  destruct (reader_step_ex s6
              (set_rdloop RdRead
                 (set_chans (<[ch := true]> (chans (conn s6))) (conn s6))))
    as (s7 & Hs7 & Ht7 & Hc7).
  { unfold readRespLoop, close_chan. rewrite Hc6, Hc5, Hc4, Hc3, Hc2, Hc1. cbn.
    by rewrite lookup_app_r, Nat.sub_diag. }
  exists s7. split.
  { unfold exchange_sched.
    eapply run_cons_Ok; [exact Hs1|]. eapply run_cons_Ok; [exact Hs2|].
    eapply run_cons_Ok; [exact Hs3|]. eapply run_cons_Ok; [exact Hs4|].
    eapply run_cons_Ok; [exact Hs5|]. eapply run_cons_Ok; [exact Hs6|].
    eapply run_cons_Ok; [exact Hs7|]. done. }
  split; [by rewrite Ht7|]. split.
  { intros j Hj. rewrite Ht7.
    rewrite (step_frame _ _ _ j Hs6) by congruence. rewrite Ht5, Ht4.
    rewrite (step_frame _ _ _ j Hs3) by congruence.
    rewrite (step_frame _ _ _ j Hs2) by congruence.
    by rewrite (step_frame _ _ _ j Hs1) by congruence. }
  rewrite Hc7, Hc6, Hc5, Hc4, Hc3, Hc2, Hc1. cbn.
  split; [by apply delete_insert_id|]. split.
  { replace ch with (length (chans (conn s)) + 0) by lia.
    by rewrite insert_app_r. }
  done.
Qed.

Lemma X9_exchange_round_trip_witness :
  ∃ s', run (exchange_sched 0) answered_sys = Ok s' ∧
    threads s' !! 0
    = Some (InCall ApiOffset
              (Return (set_ReplicaID (-1) (set_CorrelationID 1 req0))
                 (RetDecode ApiOffset [x01]))) ∧
    respc (conn s') = ∅ ∧ chans (conn s') = [true].
Proof.
  destruct (X9_exchange_round_trip answered_sys 0 ApiOffset req0 1 [x01] [])
    as (s' & Hrun & Hi & _ & Htab & Hch & _); try reflexivity.
  { intros [=]. }
  exists s'. exact (conj Hrun (conj Hi (conj Htab Hch))).
Defined.

(** ** The table and the channels *)

Lemma reachable_table_tokens (s : system) :
  reachable s → ∀ tok rc, respc (conn s) !! tok = Some rc → in_range tok.
Proof.
  revert s.
  apply (reachable_ind (λ s, ∀ tok rc, respc (conn s) !! tok = Some rc →
                               in_range tok)).
  - intros rw0 ts _ _ _ tok rc Htab. cbn in Htab. by rewrite lookup_empty in Htab.
  - intros ch s s' Hr IH Hs. pose proof (reachable_inv s Hr) as Hinv.
    pose proof (inv_token s Hinv) as Htok.
    apply step_trans in Hs. destruct Hs; cbn in *; try done.
    + intros tok rc0 [_ Htab]%lookup_delete_Some. eauto.
    + intros tok rc0 [[<- _]|[_ Htab]]%lookup_insert_Some; [|eauto].
      by eapply (Htok i).
Qed.

(** X10.  In every reachable state: every pending entry has a token between
    1 and 2^31-2 and a channel of its own, which is open as long as the
    reader has not returned; no two calls in progress share a channel; and a
    call that has registered and not yet received either has its entry in
    the table, under its own token and channel, or is being sent its
    response by the reader. *)
Theorem X10_table_well_formed (s : system) :
  reachable s →
  (∀ tok rc, respc (conn s) !! tok = Some rc →
     (1 ≤ tok ≤ 2 ^ 31 - 2)%Z ∧ rc < length (chans (conn s)) ∧
     (rdloop (conn s) ≠ RdExit → chans (conn s) !! rc = Some false)) ∧
  (∀ tok1 tok2 rc, respc (conn s) !! tok1 = Some rc →
     respc (conn s) !! tok2 = Some rc → tok1 = tok2) ∧
  (∀ i j ti tj tok tok' rc,
     threads s !! i = Some ti → threads s !! j = Some tj →
     holds ti = Some (tok, rc) → holds tj = Some (tok', rc) → i = j) ∧
  (∀ i t tok rc, threads s !! i = Some t → holds t = Some (tok, rc) →
     respc (conn s) !! tok = Some rc ∨
     ∃ b, rdloop (conn s) = RdSend tok rc b ∧
          ∀ tok', respc (conn s) !! tok' ≠ Some rc).
Proof.
  intros Hr. pose proof (reachable_inv s Hr) as Hinv.
  split; [|split; [|split]].
  - intros tok rc Htab.
    pose proof (reachable_table_tokens s Hr tok rc Htab) as Hin.
    unfold in_range, MaxInt32 in Hin. split; [lia|].
    split; [by eapply (inv_tab_lt s Hinv)|]. by apply (inv_tab_open s Hinv tok).
  - apply (inv_tab_inj s Hinv).
  - apply (inv_own s Hinv).
  - intros i t tok rc Hi Hh.
    destruct (inv_holds s Hinv i t tok rc Hi Hh) as [_ [Htab|[b Hb]]];
      [by left|].
    right. exists b. split; [done|]. by apply (inv_send s Hinv _ _ _ Hb).
Qed.

Lemma X10_table_well_formed_witness :
  reachable waiting_sys ∧
  respc (conn waiting_sys) !! 1%Z = Some 0 ∧
  chans (conn waiting_sys) !! 0 = Some false.
Proof.
  assert (Hr : reachable waiting_sys)
    by (apply (reachable_by quiet
                 [InCall ApiMetadata (Start req0);
                  InCall ApiOffsetFetch (Start req0); InClose]
                 [Thread 0; Thread 0; Thread 0; Thread 1; Thread 1; Thread 1]);
        vm_compute; reflexivity).
  assert (Htab : respc (conn waiting_sys) !! 1%Z = Some 0)
    by (vm_compute; reflexivity).
  destruct (X10_table_well_formed waiting_sys Hr) as (H1 & _).
  destruct (H1 1%Z 0 Htab) as (_ & _ & Hopen).
  split; [exact Hr|]. split; [exact Htab|].
  apply Hopen. vm_compute. discriminate.
Defined.
